(** * go-logger: a shallow embedding of the leveled logging facade

    The repository holds three revisions of [logger.go]:
    - the go-kit revision (positional constructor, [Level] as [int8],
      filtering done by the package itself): module [Kit];
    - the first slog revision (functional options, threshold parsed from
      the [level] option): module [SlogA];
    - the latest slog revision (leveler option, caller prefix trimming,
      polymorphic message, [multiError] interface): module [SlogB].

    Go values are embedded as follows: [string] is a byte string
    ([String.string]), integers are [Z], a [*L] handle is [option L]
    ([None] is the nil pointer), an [error] interface value is
    [option error], variadic [...any] arguments are [list any].  What a
    call does to the outside world is a trace of [event]s.

    A logging call of the slog revisions is given in two steps: the
    hand-over ([L_log], [slogger.Log]) is the record the slog handler
    is given, and the call ([L_log_call], [slogger.Log_call], and the
    public methods built on it) is its [outcome], with the fault of the
    [ReplaceAttr] closure of [New] when the handler formats a field the
    closure cannot take.  A handle is given as it reads when the call
    that makes it returns; module [Shared] has the source segments of
    the latest revision as slices in a heap of backing arrays, for what
    depends on [append] sharing an array. *)

From Stdlib Require Import ZArith List String Ascii Bool Lia Permutation.
From Stdlib Require Import Numbers.DecimalString.
Import ListNotations.

Open Scope string_scope.
Open Scope Z_scope.
Open Scope list_scope.

(** ** Pieces of the Go standard library the package calls *)

Module strings.

(** [strings.HasPrefix(s, prefix)]. *)
Definition HasPrefix (s prefix : string) : bool := String.prefix prefix s.

(** [c < utf8.RuneSelf]. *)
Definition isASCII (c : ascii) : bool := (nat_of_ascii c <? 128)%nat.

Definition lowerByte (c : ascii) : ascii :=
  let n := nat_of_ascii c in
  if ((65 <=? n) && (n <=? 90))%nat then ascii_of_nat (n + 32) else c.

Fixpoint allASCII (s : string) : bool :=
  match s with
  | EmptyString => true
  | String c s' => isASCII c && allASCII s'
  end.

Fixpoint mapBytes (f : ascii -> ascii) (s : string) : string :=
  match s with
  | EmptyString => EmptyString
  | String c s' => String (f c) (mapBytes f s')
  end.

(** [strings.ToLower(s)].  The ASCII-only path is the library's own
    fast path; on any other input the library maps [unicode.ToLower]
    over the runes, which is the parameter [unicodeLower]. *)
Definition ToLower (unicodeLower : string -> string) (s : string) : string :=
  if allASCII s then mapBytes lowerByte s else unicodeLower s.

(** [strings.Join(elems, sep)]. *)
Definition Join (elems : list string) (sep : string) : string :=
  String.concat sep elems.

Fixpoint drop (n : nat) (s : string) : string :=
  match n, s with
  | O, _ => s
  | S n', String _ s' => drop n' s'
  | S _, EmptyString => EmptyString
  end.

(** [strings.TrimPrefix(s, prefix)]. *)
Definition TrimPrefix (s prefix : string) : string :=
  if HasPrefix s prefix then drop (String.length prefix) s else s.

Fixpoint rev_onto (s acc : string) : string :=
  match s with
  | EmptyString => acc
  | String c s' => rev_onto s' (String c acc)
  end.

(** [strings.HasSuffix(s, suffix)]. *)
Definition HasSuffix (s suffix : string) : bool :=
  String.prefix (rev_onto suffix "") (rev_onto s "").

End strings.

Module fmt.

(** Decimal digits of a non-negative integer, as [%d] prints them. *)
Definition decimal (n : nat) : string :=
  NilEmpty.string_of_uint (Nat.to_uint n).

(** [fmt.Sprintf("%02d", i)] for a non-negative [i] (a slice index):
    the decimal digits, padded with zeros on the left up to width 2. *)
Definition pad02 (i : nat) : string :=
  let d := decimal i in
  if (String.length d <? 2)%nat then "0" ++ d else d.

(** [fmt.Sprintf("%+d", v)]: the sign is always printed. *)
Definition signed (v : Z) : string :=
  if v <? 0 then "-" ++ decimal (Z.to_nat (- v)) else "+" ++ decimal (Z.to_nat v).

End fmt.

(** ** Go values that reach the logger *)

(** A [time.Time]: an instant and the location it is displayed in. *)
Record Time : Type := mkTime { instant : Z; zone : string }.

Definition UTC : string := "UTC".

(** [t.In(loc)]. *)
Definition In_loc (loc : string) (t : Time) : Time :=
  {| instant := instant t; zone := loc |}.

Definition TimeFormatterFunc : Type := Time -> string.

(** A non-nil [error].  [MultiError] is an error that also has the method
    [WrappedErrors() []error] (in the older revisions: a
    [*multierror.Error] with its [Errors] field); the wrapped errors are
    interface values and may be nil. *)
#[warnings="-register-all"] Inductive error : Type :=
| PlainError (text : string)
| MultiError (text : string) (errs : list (option error)).

Definition error_Error (e : error) : string :=
  match e with
  | PlainError text => text
  | MultiError text _ => text
  end.

(** [e.Error()] through an interface value: a nil interface faults. *)
Definition Error (e : option error) : option string :=
  option_map error_Error e.

(** go-kit's [log.Valuer]s bound by the go-kit revision. *)
Inductive valuer : Type :=
| DefaultTimestampUTC
| callerValuer (depth : nat).

(** The dynamic values ([any], [interface{}]) the package is handed.
    [AStringer s] is a value with a [String] method that prints [s], and
    [AOther] a value of the named type without one, which slog keeps as
    it is (not a group of attributes, not a [LogValuer]).  [ATime], [ALevel]
    and [AAttr] are the values the slog backend tells apart among the
    values of attributes; passed as the message of a call, where only
    their [String] method counts, such values are given as
    [AStringer]. *)
Inductive any : Type :=
| AString (s : string)
| AError (e : error)
| AStringer (s : string)
| ATime (t : Time)
| ALevel (l : Z)
| AAttr (key : string) (value : any)
| AValuer (v : valuer)
| AOther (type_name : string).

(** Destinations ([io.Writer]). *)
Inductive Writer : Type :=
| Stdout
| Discard
| Buffer (id : nat).

Inductive Format : Type := LogFmt | JSON.

(** What the process exposes to the package. *)
Record Proc : Type := mkProc {
  exe : string;                     (* filepath.Base(os.Args[0]) *)
  rfc3339nano : Time -> string;     (* t.Format(time.RFC3339Nano) *)
  unicodeLower : string -> string;  (* strings.Map(unicode.ToLower, s) *)
}.

(** What one logging call observes: the clock, and the call stack as
    [stack.Caller(depth)] formats it with ["%+k/%s:%d"] at the place the
    package asks for it. *)
Record Env : Type := mkEnv {
  now : Time;
  callers : nat -> string;
}.

(** ** The go-kit backend ([github.com/go-kit/log]) *)

Module kitlog.

(** A logger with its bound key/values ([log.context]). *)
Record Logger : Type := mkLogger {
  dest : Writer;
  format : Format;
  keyvals : list any;
}.

Definition NewLogfmtLogger (w : Writer) : Logger :=
  {| dest := w; format := LogFmt; keyvals := [] |}.

Definition NewJSONLogger (w : Writer) : Logger :=
  {| dest := w; format := JSON; keyvals := [] |}.

Definition ErrMissingValue : any := AError (PlainError "(MISSING)").

(** [if len(kvs)%2 != 0 { kvs = append(kvs, ErrMissingValue) }]. *)
Definition pad (kvs : list any) : list any :=
  if Nat.odd (List.length kvs) then kvs ++ [ErrMissingValue] else kvs.

(** [log.With(logger, keyvals...)]. *)
Definition With (l : Logger) (kvs : list any) : Logger :=
  match kvs with
  | [] => l
  | _ => {| dest := dest l; format := format l;
            keyvals := pad (keyvals l ++ kvs) |}
  end.

Definition value_of (e : Env) (v : valuer) : any :=
  match v with
  | DefaultTimestampUTC => ATime (In_loc UTC (now e))
  | callerValuer depth => AString (callers e depth)
  end.

(** [bindValues]: every value position holding a valuer is replaced by
    what the valuer returns now. *)
Fixpoint bindValues (e : Env) (kvs : list any) : list any :=
  match kvs with
  | k :: AValuer v :: rest => k :: value_of e v :: bindValues e rest
  | k :: x :: rest => k :: x :: bindValues e rest
  | rest => rest
  end.

(** [Log(keyvals...)] on a [log.context]: the key/values handed to the encoder,
    bound ones first. *)
Definition Log (e : Env) (l : Logger) (kvs : list any) : list any :=
  let all := pad (keyvals l ++ kvs) in
  bindValues e (firstn (List.length (keyvals l)) all)
    ++ skipn (List.length (keyvals l)) all.

(** The encoder walks the key/values two by two. *)
Fixpoint pairs (kvs : list any) : list (any * any) :=
  match kvs with
  | k :: v :: rest => (k, v) :: pairs rest
  | [k] => [(k, ErrMissingValue)]
  | [] => []
  end.

Definition keys (kvs : list any) : list any := map fst (pairs kvs).

End kitlog.

(** ** The slog backend ([log/slog]) *)

Module slog.

Definition Level : Type := Z.
Definition LevelDebug : Level := -4.
Definition LevelInfo : Level := 0.
Definition LevelWarn : Level := 4.
Definition LevelError : Level := 8.

(** [Level.String()]. *)
Definition Level_String (l : Level) : string :=
  let str (base : string) (val : Z) :=
    if val =? 0 then base else (base ++ fmt.signed val)%string in
  if l <? LevelInfo then str "DEBUG" (l - LevelDebug)
  else if l <? LevelWarn then str "INFO" (l - LevelInfo)
  else if l <? LevelError then str "WARN" (l - LevelWarn)
  else str "ERROR" (l - LevelError).

Definition Attr : Type := (string * any)%type.

(** [slog.String(key, value)] as an argument of a logging call. *)
Definition String_ (key value : string) : any := AAttr key (AString value).

Definition TimeKey : string := "time".
Definition LevelKey : string := "level".
Definition MessageKey : string := "msg".
Definition badKey : string := "!BADKEY".

(** [argsToAttr], iterated: a string takes the next argument as its
    value, an [Attr] stands for itself, anything else gets [badKey]. *)
Fixpoint argsToAttrs (args : list any) : list Attr :=
  match args with
  | [] => []
  | [AString k] => [(badKey, AString k)]
  | AString k :: v :: rest => (k, v) :: argsToAttrs rest
  | AAttr k v :: rest => (k, v) :: argsToAttrs rest
  | x :: rest => (badKey, x) :: argsToAttrs rest
  end.

(** A text or JSON handler with its options and the attributes added
    by [WithAttrs]. *)
Record Handler : Type := mkHandler {
  dest : Writer;
  format : Format;
  minLevel : option Level;                   (* HandlerOptions.Level *)
  timeFormatter : option TimeFormatterFunc;  (* captured by ReplaceAttr *)
  attrs : list Attr;
}.

Record Record_ : Type := mkRecord {
  time : Time;
  level : Level;
  msg : string;
  rattrs : list Attr;
}.

(** The minimum level of a handler: [LevelInfo] when no leveler is set. *)
Definition threshold (h : Handler) : Level :=
  match minLevel h with
  | Some m => m
  | None => LevelInfo
  end.

(** The handler's [Enabled]: [l >= minLevel]. *)
Definition Enabled (h : Handler) (l : Level) : bool := threshold h <=? l.

(** [Logger.With(args...)]: the handler with the attributes bound, as
    its result when the call returns; the run of [ReplaceAttr] on the
    bound attributes, which may fault, is in [slogger.With_call],
    [SlogB.New_call] and [SlogB.L_With_call]. *)
Definition With (h : Handler) (args : list any) : Handler :=
  match args with
  | [] => h
  | _ => {| dest := dest h; format := format h; minLevel := minLevel h;
            timeFormatter := timeFormatter h;
            attrs := attrs h ++ argsToAttrs args |}
  end.

Fixpoint mapM {A B : Type} (f : A -> option B) (l : list A) : option (list B) :=
  match l with
  | [] => Some []
  | x :: l' =>
      match f x, mapM f l' with
      | Some y, Some ys => Some (y :: ys)
      | _, _ => None
      end
  end.

(** The attributes of one output line in the order the built-in
    handlers write them: time, level, message, the handler's
    attributes, the record's attributes; each one is first passed
    through [rep] (the [ReplaceAttr] option), which may fault. *)
Definition line (rep : Attr -> option Attr) (h : Handler) (r : Record_)
  : option (list Attr) :=
  mapM rep ([(TimeKey, ATime (time r)); (LevelKey, ALevel (level r));
             (MessageKey, AString (msg r))] ++ attrs h ++ rattrs r).

End slog.

(** ** Effects *)

(** One step a call takes in the outside world: a record handed to the
    backend bound to a destination, or a call of [os.Exit].  The line a
    slog handler writes for a record is [slog.line]; a call whose
    handler faults while it formats the record ([slogger.Log_call])
    leaves no event. *)
Inductive event : Type :=
| EvKit (w : Writer) (f : Format) (keyvals : list any)
| EvSlog (h : slog.Handler) (r : slog.Record_)
| EvExit (code : Z).

(** A call either returns or faults (a nil dereference, a failed type
    assertion), after a trace. *)
Inductive outcome : Type :=
| Returns (tr : list event)
| Panics (tr : list event).

Definition trace (o : outcome) : list event :=
  match o with Returns tr | Panics tr => tr end.

Module slogger.

(** The hand-over of [Logger.Log(ctx, level, msg, args...)]: the record
    the handler is given when the level is enabled.  The whole call,
    with what the handler does to the record, is [Log_call]. *)
Definition Log (h : slog.Handler) (t : Time) (lvl : slog.Level)
           (msg : string) (args : list any) : list event :=
  if slog.Enabled h lvl
  then [EvSlog h {| slog.time := t; slog.level := lvl; slog.msg := msg;
                    slog.rattrs := slog.argsToAttrs args |}]
  else [].

(** The handler takes attributes when its [ReplaceAttr] option [rep]
    returns for every one of them. *)
Definition accepts (rep : slog.Attr -> option slog.Attr) (l : list slog.Attr) : bool :=
  forallb (fun a => match rep a with Some _ => true | None => false end) l.

(** [Logger.Log(ctx, level, msg, args...)] as a call.  When the level is
    enabled the handler formats the record into a buffer, passing the
    built-in attributes and then the attributes of the record through
    [rep], and writes the line at the end: a fault of [rep] ends the call
    with nothing written. *)
Definition Log_call (rep : slog.Attr -> option slog.Attr) (h : slog.Handler)
           (t : Time) (lvl : slog.Level) (msg : string) (args : list any)
  : outcome :=
  if slog.Enabled h lvl
  then
    if accepts rep ([(slog.TimeKey, ATime t); (slog.LevelKey, ALevel lvl);
                     (slog.MessageKey, AString msg)] ++ slog.argsToAttrs args)
    then Returns [EvSlog h {| slog.time := t; slog.level := lvl; slog.msg := msg;
                              slog.rattrs := slog.argsToAttrs args |}]
    else Panics []
  else Returns [].


End slogger.

(** The call faulted. *)
Definition faults (o : outcome) : bool :=
  match o with Returns _ => false | Panics _ => true end.

(** ** The go-kit revision of [logger.go] *)

Module Kit.

Definition FormatLogFmt : string := "logfmt".
Definition FormatJSON : string := "json".

(** [type Level int8] with its constants. *)
Definition Level : Type := Z.
Definition All : Level := 0.
Definition Fatal : Level := 1.
Definition Err : Level := 2.
Definition Warn : Level := 3.
Definition Info : Level := 4.
Definition Debug : Level := 5.

(** The entries of the map literal [levelNames]. *)
Definition levelNames : list (Level * string) :=
  [(All, "all"); (Fatal, "fatal"); (Err, "err");
   (Warn, "warn"); (Info, "info"); (Debug, "debug")].

(** [levelNames[l]] with its presence flag. *)
Definition levelNames_get (l : Level) : option string :=
  option_map snd (find (fun e => fst e =? l) levelNames).

(** [func (l Level) String() string]. *)
Definition Level_String (l : Level) : string :=
  match levelNames_get l with
  | Some name => name
  | None => match levelNames_get All with Some name => name | None => "" end
  end.

(** A [range] over the map visits every entry once, in an order the
    language leaves open: any permutation of the entries. *)
Definition range_order (order : list (Level * string)) : Prop :=
  Permutation order levelNames.

(** [ParseLevel], run with the map visited in [order]. *)
Definition ParseLevel (lower : string -> string) (order : list (Level * string))
           (s : string) : Level :=
  match find (fun e => strings.HasPrefix (snd e) (strings.ToLower lower s)) order with
  | Some e => fst e
  | None => All
  end.

(** [type L struct]. *)
Record L : Type := mkL {
  logger : kitlog.Logger;
  L_Level : Level;
  src : list string;
}.

(** [func New(w io.Writer, name, level, format string, keyvals ...interface{}) *L];
    [w] is [None] for a nil writer. *)
Definition New (lower : string -> string) (order : list (Level * string))
           (w : option Writer) (name level format : string)
           (keyvals : list any) : L :=
  let w := match w with None => Stdout | Some w => w end in
  let l := if String.eqb (strings.ToLower lower format) FormatJSON
           then kitlog.NewJSONLogger w
           else kitlog.NewLogfmtLogger w in
  let l := kitlog.With l [AString "ts"; AValuer DefaultTimestampUTC;
                          AString "caller"; AValuer (callerValuer 5)] in
  let l := if (0 <? List.length keyvals)%nat then kitlog.With l keyvals else l in
  {| logger := l; L_Level := ParseLevel lower order level; src := [name] |}.

(** [func (l *L) New(name string) *L], on a non-nil receiver: the handle
    as it reads when the call returns, [src l] being the segments of the
    receiver as they read at the call.  [append(l.src, name)] may write
    into an array that [l.src] shares with the slices of other handles
    (see [goslice.append]); [source()] reads the segments at every
    call. *)
Definition L_New (l : L) (name : string) : L :=
  {| src := src l ++ [name]; L_Level := L_Level l; logger := logger l |}.

(** [func (l *L) With(keyvals ...interface{}) *L], on a non-nil receiver. *)
Definition L_With (l : L) (keyvals : list any) : L :=
  {| src := src l; L_Level := L_Level l;
     logger := kitlog.With (logger l) keyvals |}.

(** [func (l *L) source() string]. *)
Definition L_source (l : L) : string := strings.Join (src l) ".".

(** [func (l *L) log(level Level, lvl log.Logger, keyvals ...interface{})]. *)
Definition L_log (l : option L) (e : Env) (level : Level)
           (lvl : kitlog.Logger) (keyvals : list any) : list event :=
  match l with
  | None => []
  | Some r =>
      if (L_Level r <? level) && negb (L_Level r =? All) then []
      else [EvKit (kitlog.dest lvl) (kitlog.format lvl) (kitlog.Log e lvl keyvals)]
  end.

(** The argument list every leveled method builds before it calls
    [log]: it reads [l.logger] and [l.src], which faults on a nil [l]. *)
Definition leveled (l : option L) (e : Env) (level : Level) (msg : any)
           (keyvals : list any) : outcome :=
  match l with
  | None => Panics []
  | Some r =>
      Returns (L_log l e level
                 (kitlog.With (logger r)
                    [AString "src"; AString (L_source r);
                     AString "level"; AString (Level_String level);
                     AString "msg"; msg])
                 keyvals)
  end.

Definition L_Debug (l : option L) (e : Env) (msg : any) (keyvals : list any) : outcome :=
  leveled l e Debug msg keyvals.

Definition L_Info (l : option L) (e : Env) (msg : any) (keyvals : list any) : outcome :=
  leveled l e Info msg keyvals.

Definition L_Warn (l : option L) (e : Env) (msg : any) (keyvals : list any) : outcome :=
  leveled l e Warn msg keyvals.

Definition L_Err (l : option L) (e : Env) (msg : any) (keyvals : list any) : outcome :=
  leveled l e Err msg keyvals.

(** [Fatal]: the record, then [os.Exit(1)]. *)
Definition L_Fatal (l : option L) (e : Env) (msg : any) (keyvals : list any) : outcome :=
  match leveled l e Fatal msg keyvals with
  | Returns tr => Returns (tr ++ [EvExit 1])
  | Panics tr => Panics tr
  end.

(** The loop of [LogError] over [mErr.Errors], from index [i] on. *)
Fixpoint errorKeyvals (i : nat) (errs : list (option error)) : option (list any) :=
  match errs with
  | [] => Some []
  | e :: rest =>
      match Error e, errorKeyvals (S i) rest with
      | Some text, Some kvs =>
          Some (AString ("error_" ++ fmt.pad02 i) :: AString text :: kvs)
      | _, _ => None
      end
  end.

(** [func (l *L) LogError(msg string, err error)]. *)
Definition L_LogError (l : option L) (e : Env) (msg : string)
           (err : option error) : outcome :=
  match err with
  | Some (MultiError _ errs) =>
      match errorKeyvals 0 errs with
      | Some keyvals => L_Err l e (AString msg) keyvals
      | None => Panics []
      end
  | _ =>
      match Error err with
      | Some text => L_Err l e (AString msg) [AString "error"; AString text]
      | None => Panics []
      end
  end.

(** [Default] and [Silence]. *)
Definition Default (lower : string -> string) (order : list (Level * string)) : L :=
  New lower order None "default" "" FormatLogFmt [].

Definition Silence (lower : string -> string) (order : list (Level * string)) : L :=
  New lower order (Some Discard) "discard" "" FormatLogFmt [].

End Kit.

(** ** [options.go] *)

Module Options.

(** [type options struct].  The revisions of [options.go] differ only in
    the fields they have; this is the latest one among the sources. *)
Record options : Type := mkOptions {
  format : string;
  name : string;
  keyvals : list any;
  level : string;
  destination : Writer;
  showCaller : bool;
  callerPrefixTrim : string;
  timeFormatter : option TimeFormatterFunc;
  leveler : option slog.Level;
}.

(** [type Option]: a function that mutates the record it is given. *)
Definition Option : Type := options -> options.

Definition WithFormat (format' : string) : Option := fun o =>
  {| format := format'; name := name o; keyvals := keyvals o; level := level o;
     destination := destination o; showCaller := showCaller o;
     callerPrefixTrim := callerPrefixTrim o; timeFormatter := timeFormatter o;
     leveler := leveler o |}.

Definition With (keyvals' : list any) : Option := fun o =>
  {| format := format o; name := name o; keyvals := keyvals'; level := level o;
     destination := destination o; showCaller := showCaller o;
     callerPrefixTrim := callerPrefixTrim o; timeFormatter := timeFormatter o;
     leveler := leveler o |}.

Definition WithLevel (level' : string) : Option := fun o =>
  {| format := format o; name := name o; keyvals := keyvals o; level := level';
     destination := destination o; showCaller := showCaller o;
     callerPrefixTrim := callerPrefixTrim o; timeFormatter := timeFormatter o;
     leveler := leveler o |}.

Definition WithDestination (w : Writer) : Option := fun o =>
  {| format := format o; name := name o; keyvals := keyvals o; level := level o;
     destination := w; showCaller := showCaller o;
     callerPrefixTrim := callerPrefixTrim o; timeFormatter := timeFormatter o;
     leveler := leveler o |}.

Definition WithName (name' : string) : Option := fun o =>
  {| format := format o; name := name'; keyvals := keyvals o; level := level o;
     destination := destination o; showCaller := showCaller o;
     callerPrefixTrim := callerPrefixTrim o; timeFormatter := timeFormatter o;
     leveler := leveler o |}.

Definition WithCaller (showCaller' : bool) : Option := fun o =>
  {| format := format o; name := name o; keyvals := keyvals o; level := level o;
     destination := destination o; showCaller := showCaller';
     callerPrefixTrim := callerPrefixTrim o; timeFormatter := timeFormatter o;
     leveler := leveler o |}.

Definition WithTimeLocation (p : Proc) (loc : string) : Option := fun o =>
  {| format := format o; name := name o; keyvals := keyvals o; level := level o;
     destination := destination o; showCaller := showCaller o;
     callerPrefixTrim := callerPrefixTrim o;
     timeFormatter := Some (fun ts => rfc3339nano p (In_loc loc ts));
     leveler := leveler o |}.

Definition WithCallerPrefixTrim (str : string) : Option := fun o =>
  if String.eqb str "" then o
  else
    let str := if strings.HasSuffix str "/" then str else (str ++ "/")%string in
    {| format := format o; name := name o; keyvals := keyvals o; level := level o;
       destination := destination o; showCaller := showCaller o;
       callerPrefixTrim := str; timeFormatter := timeFormatter o;
       leveler := leveler o |}.

(** [WithAutoCallerPrefixTrim]; [mainPath] is [bi.Main.Path] when
    [debug.ReadBuildInfo] has build information. *)
Definition WithAutoCallerPrefixTrim (mainPath : option string) : Option :=
  match mainPath with
  | None => fun o => o
  | Some path => WithCallerPrefixTrim path
  end.

(** Modelled from the spec: the mutator that stores the threshold in the
    [leveler] field, which the latest [New] reads; the revision of
    [options.go] that declares the field is not among the sources.  The
    spec lists the level among the options and says that the threshold
    is read on every filtering decision. *)
Definition WithLeveler (l : option slog.Level) : Option := fun o =>
  {| format := format o; name := name o; keyvals := keyvals o; level := level o;
     destination := destination o; showCaller := showCaller o;
     callerPrefixTrim := callerPrefixTrim o; timeFormatter := timeFormatter o;
     leveler := l |}.

(** The record [New] starts from, and [for _, o := range opts { o(opt) }]. *)
Definition defaults (p : Proc) : options :=
  {| format := ""; name := exe p; keyvals := []; level := "";
     destination := Stdout; showCaller := true; callerPrefixTrim := "";
     timeFormatter := None; leveler := None |}.

Definition apply (opts : list Option) (o : options) : options :=
  fold_left (fun o f => f o) opts o.

(** The time formatter [New] ends up with: the configured one, or a UTC
    one when the local rendering of the current time differs from the
    UTC rendering. *)
Definition effectiveTimeFormatter (p : Proc) (ts : Time) (o : options)
  : option TimeFormatterFunc :=
  match timeFormatter o with
  | Some f => Some f
  | None =>
      if String.eqb (rfc3339nano p ts) (rfc3339nano p (In_loc UTC ts)) then None
      else Some (fun ts => rfc3339nano p (In_loc UTC ts))
  end.

End Options.

(** ** What the two slog revisions of [logger.go] share word for word *)

Module SlogLevels.

Definition FormatLogFmt : string := "logfmt".
Definition FormatJSON : string := "json".

Definition LevelAll : slog.Level := -10.
Definition LevelFatal : slog.Level := 12.

Definition levelNames : list (slog.Level * string) :=
  [(LevelAll, "all"); (LevelFatal, "fatal"); (slog.LevelError, "err");
   (slog.LevelWarn, "warn"); (slog.LevelInfo, "info"); (slog.LevelDebug, "debug")].

Definition levelNames_get (l : slog.Level) : option string :=
  option_map snd (find (fun e => fst e =? l) levelNames).

Definition range_order (order : list (slog.Level * string)) : Prop :=
  Permutation order levelNames.

(** [ParseLevel], run with the map visited in [order]. *)
Definition ParseLevel (lower : string -> string)
           (order : list (slog.Level * string)) (s : string) : slog.Level :=
  let s := strings.ToLower lower s in
  match find (fun e => strings.HasPrefix (snd e) s) order with
  | Some e => fst e
  | None => LevelAll
  end.

(** The [ReplaceAttr] closure of [New]; [tf] is [opt.timeFormatter].
    [a.Value.Time()] and the assertion [a.Value.Any().(slog.Level)]
    fault on a value of another kind. *)
Definition ReplaceAttr (tf : option TimeFormatterFunc) (a : slog.Attr)
  : option slog.Attr :=
  let (key, value) := a in
  if String.eqb key slog.TimeKey then
    match tf with
    | None => Some ("ts", value)
    | Some f =>
        match value with
        | ATime t => Some ("ts", AString (f t))
        | _ => None
        end
    end
  else if String.eqb key slog.LevelKey then
    match value with
    | ALevel level =>
        let levelLabel :=
          match levelNames_get level with
          | Some name => name
          | None => slog.Level_String level
          end in
        Some (key, AString levelLabel)
    | _ => None
    end
  else Some a.

(** The handler [New] builds from the options. *)
Definition newHandler (lower : string -> string) (tf : option TimeFormatterFunc)
           (lvl : option slog.Level) (o : Options.options) : slog.Handler :=
  {| slog.dest := Options.destination o;
     slog.format := if String.eqb (strings.ToLower lower (Options.format o)) FormatJSON
                    then JSON else LogFmt;
     slog.minLevel := lvl;
     slog.timeFormatter := tf;
     slog.attrs := [] |}.

(** The line a handler built by [New] writes for a record. *)
Definition line (h : slog.Handler) (r : slog.Record_) : option (list slog.Attr) :=
  slog.line (ReplaceAttr (slog.timeFormatter h)) h r.

End SlogLevels.

(** ** The first slog revision of [logger.go] *)

Module SlogA.

Import SlogLevels.

(** [type L struct]. *)
Record L : Type := mkL {
  slogger : slog.Handler;
  src : list string;
  showCaller : bool;
}.

(** [func New(opts ...Option) *L]; [order] is the order in which
    [ParseLevel] visits the level names, [ts] is [time.Now()]. *)
Definition New (p : Proc) (order : list (slog.Level * string)) (ts : Time)
           (opts : list Options.Option) : L :=
  let opt := Options.apply opts (Options.defaults p) in
  let tf := Options.effectiveTimeFormatter p ts opt in
  let l := newHandler (unicodeLower p) tf
             (Some (ParseLevel (unicodeLower p) order (Options.level opt))) opt in
  let l := slog.With l (Options.keyvals opt
                          ++ [slog.String_ "src" (Options.name opt)]) in
  {| slogger := l; src := [Options.name opt];
     showCaller := Options.showCaller opt |}.

(** [func caller(depth int) string]. *)
Definition caller (e : Env) (depth : nat) : string := callers e depth.

(** [func (l *L) New(name string) *L], on a non-nil receiver: the handle
    as it reads when the call returns, [src l] being the segments of the
    receiver as they read at the call ([append(l.src, name)] may write
    into an array shared with the slices of other handles, see
    [goslice.append]).  The struct literal sets [src] and [slogger]
    only: [showCaller] is the zero value. *)
Definition L_New (l : L) (name : string) : L :=
  {| src := src l ++ [name];
     slogger := slog.With (slogger l)
                  [slog.String_ "src" (strings.Join (src l ++ [name]) ".")];
     showCaller := false |}.

(** [func (l *L) With(keyvals ...any) *L], on a non-nil receiver. *)
Definition L_With (l : L) (keyvals : list any) : L :=
  {| src := src l;
     slogger := slog.With (slogger l) keyvals;
     showCaller := false |}.

(** The hand-over of [func (l *L) log(ctx, lvl slog.Level, msg string,
    keyvals ...any)]: what the handler is given.  The whole call is
    [L_log_call]. *)
Definition L_log (l : option L) (e : Env) (lvl : slog.Level) (msg : string)
           (keyvals : list any) : list event :=
  match l with
  | None => []
  | Some r =>
      let keyvals :=
        if showCaller r then keyvals ++ [slog.String_ "caller" (caller e 3)]
        else keyvals in
      slogger.Log (slogger r) (now e) lvl msg keyvals
  end.

(** [func (l *L) log(ctx, lvl slog.Level, msg string, keyvals ...any)]
    as a call. *)
Definition L_log_call (l : option L) (e : Env) (lvl : slog.Level) (msg : string)
           (keyvals : list any) : outcome :=
  match l with
  | None => Returns []
  | Some r =>
      let keyvals :=
        if showCaller r then keyvals ++ [slog.String_ "caller" (caller e 3)]
        else keyvals in
      slogger.Log_call (ReplaceAttr (slog.timeFormatter (slogger r)))
        (slogger r) (now e) lvl msg keyvals
  end.

Definition L_Debug (l : option L) (e : Env) (msg : string) (keyvals : list any) : outcome :=
  L_log_call l e slog.LevelDebug msg keyvals.

Definition L_Info (l : option L) (e : Env) (msg : string) (keyvals : list any) : outcome :=
  L_log_call l e slog.LevelInfo msg keyvals.

Definition L_Warn (l : option L) (e : Env) (msg : string) (keyvals : list any) : outcome :=
  L_log_call l e slog.LevelWarn msg keyvals.

Definition L_Err (l : option L) (e : Env) (msg : string) (keyvals : list any) : outcome :=
  L_log_call l e slog.LevelError msg keyvals.

(** [Fatal]: [l.log] at [LevelFatal], then [os.Exit(1)] when the call
    of [log] has returned. *)
Definition L_Fatal (l : option L) (e : Env) (msg : string) (keyvals : list any) : outcome :=
  match L_log_call l e LevelFatal msg keyvals with
  | Returns tr => Returns (tr ++ [EvExit 1])
  | Panics tr => Panics tr
  end.

End SlogA.

(** ** The latest revision of [logger.go] *)

Module SlogB.

Import SlogLevels.

(** [type L struct]. *)
Record L : Type := mkL {
  slogger : slog.Handler;
  src : list string;
  showCaller : bool;
  callerPrefixTrim : string;
}.

(** [func New(opts ...Option) *L]; [ts] is [time.Now()]. *)
Definition New (p : Proc) (ts : Time) (opts : list Options.Option) : L :=
  let opt := Options.apply opts (Options.defaults p) in
  let tf := Options.effectiveTimeFormatter p ts opt in
  let l := newHandler (unicodeLower p) tf (Options.leveler opt) opt in
  let l := slog.With l (Options.keyvals opt
                          ++ [slog.String_ "src" (Options.name opt)]) in
  {| slogger := l; src := [Options.name opt];
     showCaller := Options.showCaller opt;
     callerPrefixTrim := Options.callerPrefixTrim opt |}.

(** [New] as a call: binding the static fields and [src] runs the
    [ReplaceAttr] closure on them; [None] is a fault of the closure. *)
Definition New_call (p : Proc) (ts : Time) (opts : list Options.Option)
  : option L :=
  let l := New p ts opts in
  if slogger.accepts (ReplaceAttr (slog.timeFormatter (slogger l)))
       (slog.attrs (slogger l))
  then Some l else None.

(** [func caller(depth int, prefixTrim string) string]. *)
Definition caller (e : Env) (depth : nat) (prefixTrim : string) : string :=
  if negb (String.eqb prefixTrim "")
  then strings.TrimPrefix (callers e depth) prefixTrim
  else callers e depth.

(** [func (l *L) New(name string) *L], on a non-nil receiver: the handle
    as it reads when the call returns, [src l] being the segments of the
    receiver as they read at the call.  [append(l.src, name)] may write
    into an array that [l.src] shares with the slices of other handles:
    [Shared.L_New] is the same function with the arrays in a heap. *)
Definition L_New (l : L) (name : string) : L :=
  {| src := src l ++ [name];
     slogger := slog.With (slogger l)
                  [slog.String_ "src" (strings.Join (src l ++ [name]) ".")];
     showCaller := showCaller l;
     callerPrefixTrim := callerPrefixTrim l |}.

(** [func (l *L) With(keyvals ...any) *L], on a non-nil receiver. *)
Definition L_With (l : L) (keyvals : list any) : L :=
  {| src := src l;
     slogger := slog.With (slogger l) keyvals;
     showCaller := showCaller l;
     callerPrefixTrim := callerPrefixTrim l |}.


(** The [%T] of a value. *)
Definition typeName (v : any) : string :=
  match v with
  | AString _ => "string"
  | AError _ => "*errors.errorString"
  | AStringer _ => "fmt.Stringer"
  | ATime _ => "time.Time"
  | ALevel _ => "slog.Level"
  | AAttr _ _ => "slog.Attr"
  | AValuer _ => "log.Valuer"
  | AOther type_name => type_name
  end.

(** [func toString(s any) string], on the values a message is given as:
    a string, an error, a [fmt.Stringer] as [AStringer], and the values
    without a [String] method, which take the default branch. *)
Definition toString (s : any) : string :=
  match s with
  | AString v => v
  | AError v => error_Error v
  | AStringer v => v
  | v => ("unable to convert type " ++ typeName v ++ " to string")%string
  end.

(** The hand-over of [func (l *L) log(ctx, lvl slog.Level, msg any,
    keyvals ...any)]: what the handler is given.  The whole call is
    [L_log_call]. *)
Definition L_log (l : option L) (e : Env) (lvl : slog.Level) (msg : any)
           (keyvals : list any) : list event :=
  match l with
  | None => []
  | Some r =>
      let keyvals :=
        if showCaller r
        then keyvals ++ [slog.String_ "caller" (caller e 3 (callerPrefixTrim r))]
        else keyvals in
      slogger.Log (slogger r) (now e) lvl (toString msg) keyvals
  end.

(** [func (l *L) log(ctx, lvl slog.Level, msg any, keyvals ...any)] as a
    call. *)
Definition L_log_call (l : option L) (e : Env) (lvl : slog.Level) (msg : any)
           (keyvals : list any) : outcome :=
  match l with
  | None => Returns []
  | Some r =>
      let keyvals :=
        if showCaller r
        then keyvals ++ [slog.String_ "caller" (caller e 3 (callerPrefixTrim r))]
        else keyvals in
      slogger.Log_call (ReplaceAttr (slog.timeFormatter (slogger r)))
        (slogger r) (now e) lvl (toString msg) keyvals
  end.

Definition L_Debug (l : option L) (e : Env) (msg : any) (keyvals : list any) : outcome :=
  L_log_call l e slog.LevelDebug msg keyvals.

Definition L_Info (l : option L) (e : Env) (msg : any) (keyvals : list any) : outcome :=
  L_log_call l e slog.LevelInfo msg keyvals.

Definition L_Warn (l : option L) (e : Env) (msg : any) (keyvals : list any) : outcome :=
  L_log_call l e slog.LevelWarn msg keyvals.

Definition L_Err (l : option L) (e : Env) (msg : any) (keyvals : list any) : outcome :=
  L_log_call l e slog.LevelError msg keyvals.

(** [Fatal]: [l.log] at [LevelFatal], then [os.Exit(1)] when the call
    of [log] has returned. *)
Definition L_Fatal (l : option L) (e : Env) (msg : any) (keyvals : list any) : outcome :=
  match L_log_call l e LevelFatal msg keyvals with
  | Returns tr => Returns (tr ++ [EvExit 1])
  | Panics tr => Panics tr
  end.

(** The loop of [LogError] over [mErr.WrappedErrors()], from index [i]
    on: one [slog.String] per wrapped error; [e.Error()] faults on a nil
    entry. *)
Fixpoint errorAttrs (i : nat) (errs : list (option error)) : option (list any) :=
  match errs with
  | [] => Some []
  | e :: rest =>
      match Error e, errorAttrs (S i) rest with
      | Some text, Some kvs =>
          Some (slog.String_ ("error_" ++ fmt.pad02 i) text :: kvs)
      | _, _ => None
      end
  end.

(** [func (l *L) LogError(msg string, err error, keyvals ...any)]. *)
Definition L_LogError (l : option L) (e : Env) (msg : string)
           (err : option error) (keyvals : list any) : outcome :=
  match err with
  | Some (MultiError _ errs) =>
      match errorAttrs 0 errs with
      | Some attrs => L_log_call l e slog.LevelError (AString msg) (keyvals ++ attrs)
      | None => Panics []
      end
  | _ =>
      match Error err with
      | Some text =>
          L_log_call l e slog.LevelError (AString msg)
            (keyvals ++ [slog.String_ "error" text])
      | None => Panics []
      end
  end.

(** [Default] and [Silence]. *)
Definition Default (p : Proc) (ts : Time) : L :=
  New p ts [Options.WithName "default"; Options.WithFormat FormatLogFmt].

Definition Silence (p : Proc) (ts : Time) : L :=
  New p ts [Options.WithDestination Discard; Options.WithName "discard"].

End SlogB.

(** ** The dynamic leveler of the latest revision *)

Module Dynamic.

Import SlogLevels.

(** [type DynamicLeveler struct]: a cell holding the current level (the
    content of its [atomic.Value]), read and written one call at a time. *)
Record DynamicLeveler : Type := mkDynamicLeveler { level : slog.Level }.

(** [func NewDynamicLeveler(initialLevel string) *DynamicLeveler]. *)
Definition NewDynamicLeveler (lower : string -> string)
           (order : list (slog.Level * string)) (initialLevel : string)
  : DynamicLeveler :=
  {| level := ParseLevel lower order initialLevel |}.

(** [func (d *DynamicLeveler) SetLevel(level string)]. *)
Definition SetLevel (lower : string -> string)
           (order : list (slog.Level * string)) (d : DynamicLeveler)
           (level' : string) : DynamicLeveler :=
  {| level := ParseLevel lower order level' |}.

(** [func (d *DynamicLeveler) Level() slog.Level]. *)
Definition Level (d : DynamicLeveler) : slog.Level := level d.

End Dynamic.

(** ** Slices of strings and their backing arrays *)

Module goslice.

(** A slice value: the backing array it starts at, its length and its
    capacity. *)
Record Slice : Type := mkSlice { array : nat; len : nat; cap : nat }.

(** The backing arrays allocated so far, each as long as its capacity. *)
Definition Heap : Type := list (list string).

Definition backing (hp : Heap) (s : Slice) : list string := nth (array s) hp [].

(** The elements of a slice as they read in a heap. *)
Definition elems (hp : Heap) (s : Slice) : list string :=
  firstn (len s) (backing hp s).

(** A slice of the heap: its array is allocated and as long as the
    capacity, which bounds the length. *)
Definition valid (hp : Heap) (s : Slice) : bool :=
  ((array s <? List.length hp) && (List.length (backing hp s) =? cap s)
   && (len s <=? cap s))%nat.

(** A slice literal: a new array holding the elements, with no spare
    capacity. *)
Definition literal (hp : Heap) (xs : list string) : Heap * Slice :=
  (hp ++ [xs],
   {| array := List.length hp; len := List.length xs; cap := List.length xs |}).

Definition store (arr : list string) (i : nat) (x : string) : list string :=
  firstn i arr ++ x :: skipn (S i) arr.

Fixpoint update (hp : Heap) (a : nat) (arr : list string) : Heap :=
  match hp, a with
  | [], _ => []
  | _ :: rest, O => arr :: rest
  | b :: rest, S a' => b :: update rest a' arr
  end.

(** [append(s, x)].  With spare capacity [x] is written into the array
    of [s] right after its elements and the result shares that array.
    Without, the elements and [x] go to a new array; [grow] is the
    capacity the runtime chooses for the array that replaces a full one
    of a given capacity, taken to be at least the new length. *)
Definition append (grow : nat -> nat) (hp : Heap) (s : Slice) (x : string)
  : Heap * Slice :=
  if (len s <? cap s)%nat
  then (update hp (array s) (store (backing hp s) (len s) x),
        {| array := array s; len := S (len s); cap := cap s |})
  else
    let c := Nat.max (S (len s)) (grow (cap s)) in
    (hp ++ [elems hp s ++ x :: repeat ""%string (c - S (len s))],
     {| array := List.length hp; len := S (len s); cap := c |}).

End goslice.

(** ** The latest revision with the source segments in their arrays *)

Module Shared.

(** [type L struct], the field [src] as the slice value it is. *)
Record L : Type := mkL {
  slogger : slog.Handler;
  src : goslice.Slice;
  showCaller : bool;
  callerPrefixTrim : string;
}.

(** [func New(opts ...Option) *L]: [src] is the literal holding the
    name. *)
Definition New (p : Proc) (ts : Time) (opts : list Options.Option)
           (hp : goslice.Heap) : goslice.Heap * L :=
  let l := SlogB.New p ts opts in
  let (hp', s) :=
    goslice.literal hp [Options.name (Options.apply opts (Options.defaults p))] in
  (hp', {| slogger := SlogB.slogger l; src := s;
           showCaller := SlogB.showCaller l;
           callerPrefixTrim := SlogB.callerPrefixTrim l |}).

(** [func (l *L) New(name string) *L]: the struct literal appends to
    [l.src] twice, for the field [src] and for the joined path. *)
Definition L_New (grow : nat -> nat) (hp : goslice.Heap) (l : L) (name : string)
  : goslice.Heap * L :=
  let (hp1, src1) := goslice.append grow hp (src l) name in
  let (hp2, src2) := goslice.append grow hp1 (src l) name in
  (hp2, {| src := src1;
           slogger := slog.With (slogger l)
                        [slog.String_ "src"
                           (strings.Join (goslice.elems hp2 src2) ".")];
           showCaller := showCaller l;
           callerPrefixTrim := callerPrefixTrim l |}).

(** The handle as it reads in a heap. *)
Definition read (hp : goslice.Heap) (l : L) : SlogB.L :=
  {| SlogB.slogger := slogger l;
     SlogB.src := goslice.elems hp (src l);
     SlogB.showCaller := showCaller l;
     SlogB.callerPrefixTrim := callerPrefixTrim l |}.

(** Sub-loggers derived one from the other. *)
Fixpoint chain (grow : nat -> nat) (hp : goslice.Heap) (l : L)
         (names : list string) : goslice.Heap * L :=
  match names with
  | [] => (hp, l)
  | n :: rest =>
      let (hp', l') := L_New grow hp l n in chain grow hp' l' rest
  end.

End Shared.

(** ** Vocabulary of the statements *)

Definition non_nil (e : option error) : bool :=
  match e with Some _ => true | None => false end.

(** An error value the package can ask the message of without a fault:
    it is not nil and, when it wraps errors, none of them is nil. *)
Definition usable (err : option error) : bool :=
  match err with
  | None => false
  | Some (PlainError _) => true
  | Some (MultiError _ errs) => forallb non_nil errs
  end.

(** The call-site arguments form complete pairs: no string key is left
    without a value at the end. *)
Fixpoint paired (args : list any) : bool :=
  match args with
  | [] => true
  | [AString _] => false
  | AString _ :: _ :: rest => paired rest
  | _ :: rest => paired rest
  end.

(** The key a handler built by [New] writes for an attribute key. *)
Definition outKey (key : string) : string :=
  if String.eqb key slog.TimeKey then "ts" else key.

(** The fields the spec words for a multi-error: one per wrapped error,
    keyed ["error_"] and the index, valued with the message, in order. *)
Definition indexedFields (errs : list error) : list slog.Attr :=
  map (fun ie => (("error_" ++ fmt.pad02 (fst ie))%string,
                  AString (error_Error (snd ie))))
      (combine (seq 0 (List.length errs)) errs).

(** The key order the spec words for a logfmt record: time, caller, the
    bound fields, level, message, the call-site fields. *)
Definition specOrder (bound callsite : list string) : list string :=
  ["ts"; "caller"] ++ bound ++ ["level"; "msg"] ++ callsite.

(** The keys of the lines a trace writes through slog handlers. *)
Definition lineKeys (ev : event) : option (list string) :=
  match ev with
  | EvSlog h r => option_map (map fst) (SlogLevels.line h r)
  | _ => None
  end.

(** An option that is not a [With]: it leaves the static fields alone. *)
Definition keeps_keyvals (f : Options.Option) : Prop :=
  forall o, Options.keyvals (f o) = Options.keyvals o.

(** A key made of ["error_"] and exactly two decimal digits. *)
Definition twoDigitKey (key : string) : bool :=
  let isDigit (c : ascii) := ((48 <=? nat_of_ascii c) && (nat_of_ascii c <=? 57))%nat in
  match strings.drop 6 key with
  | String d1 (String d2 EmptyString) =>
      String.prefix "error_" key && isDigit d1 && isDigit d2
  | _ => false
  end.

(** The [caller] attribute [log] appends when caller display is on. *)
Definition callerAttrs (r : SlogB.L) (e : Env) : list slog.Attr :=
  if SlogB.showCaller r
  then [("caller", AString (SlogB.caller e 3 (SlogB.callerPrefixTrim r)))]
  else [].

(** The attribute keys of the record a call handed to a slog handler. *)
Definition recordKeys (o : outcome) : list string :=
  match trace o with
  | [EvSlog _ r] => map fst (slog.rattrs r)
  | _ => []
  end.

Definition isString (x : any) : bool :=
  match x with AString _ => true | _ => false end.

(** No attribute uses a key the [ReplaceAttr] closure rewrites. *)
Definition plainKeys (l : list slog.Attr) : bool :=
  forallb (fun a => negb (String.eqb (fst a) slog.TimeKey
                          || String.eqb (fst a) slog.LevelKey)) l.

(** Sample inputs. *)
Definition sampleProc : Proc :=
  {| exe := "go-logger.test";
     rfc3339nano := fun t => (fmt.signed (instant t) ++ " " ++ zone t)%string;
     unicodeLower := fun s => s |}.

Definition sampleEnv : Env :=
  {| now := {| instant := 42; zone := "Local" |};
     callers := fun _ => "github.com/jasonhancock/go-logger/logger_test.go:29" |}.

(** One derivation from a handle: a sub-logger or added fields. *)
Inductive step : Type :=
| StepNew (name : string)
| StepWith (keyvals : list any).

Definition SlogB_derive (l : SlogB.L) (s : step) : SlogB.L :=
  match s with
  | StepNew name => SlogB.L_New l name
  | StepWith keyvals => SlogB.L_With l keyvals
  end.

Definition SlogA_derive (l : SlogA.L) (s : step) : SlogA.L :=
  match s with
  | StepNew name => SlogA.L_New l name
  | StepWith keyvals => SlogA.L_With l keyvals
  end.

Definition Kit_derive (l : Kit.L) (s : step) : Kit.L :=
  match s with
  | StepNew name => Kit.L_New l name
  | StepWith keyvals => Kit.L_With l keyvals
  end.

(** The value a handler built by [New] writes under [ts] for a record
    time, and the label it writes under [level]. *)
Definition tsValue (h : slog.Handler) (t : Time) : any :=
  match slog.timeFormatter h with
  | Some f => AString (f t)
  | None => ATime t
  end.

Definition levelLabel (lvl : slog.Level) : string :=
  match SlogLevels.levelNames_get lvl with
  | Some name => name
  | None => slog.Level_String lvl
  end.

(** The trim prefix [WithCallerPrefixTrim] stores for a non-empty path. *)
Definition trimOf (str : string) : string :=
  if strings.HasSuffix str "/" then str else (str ++ "/")%string.

(** The record is bound for the discard sink. *)
Definition toDiscard (ev : event) : bool :=
  match ev with
  | EvSlog h _ => match slog.dest h with Discard => true | _ => false end
  | EvKit Discard _ _ => true
  | _ => false
  end.

(** Options that leave a field of the record alone. *)
Definition keeps_name (f : Options.Option) : Prop :=
  forall o, Options.name (f o) = Options.name o.

Definition keeps_timeFormatter (f : Options.Option) : Prop :=
  forall o, Options.timeFormatter (f o) = Options.timeFormatter o.

Definition keeps_level (f : Options.Option) : Prop :=
  forall o, Options.level (f o) = Options.level o.

(** The arguments [log] of the latest revision passes on: the call-site
    fields, then the caller when caller display is on. *)
Definition logArgs (r : SlogB.L) (e : Env) (keyvals : list any) : list any :=
  if SlogB.showCaller r
  then keyvals ++ [slog.String_ "caller" (SlogB.caller e 3 (SlogB.callerPrefixTrim r))]
  else keyvals.

(** The handler of a handle formats the attributes of these arguments
    without a fault of its [ReplaceAttr] closure. *)
Definition takes (r : SlogB.L) (args : list any) : bool :=
  slogger.accepts (SlogLevels.ReplaceAttr (slog.timeFormatter (SlogB.slogger r)))
    (slog.argsToAttrs args).

(** The same for the first slog revision. *)
Definition logArgsA (r : SlogA.L) (e : Env) (keyvals : list any) : list any :=
  if SlogA.showCaller r
  then keyvals ++ [slog.String_ "caller" (SlogA.caller e 3)]
  else keyvals.

Definition takesA (r : SlogA.L) (args : list any) : bool :=
  slogger.accepts (SlogLevels.ReplaceAttr (slog.timeFormatter (SlogA.slogger r)))
    (slog.argsToAttrs args).


(** * Properties *)

(** ** Searching a map in an unspecified order *)

Section Range.

Context {A : Type} (p : A -> bool).

(** The first hit of a search is the only candidate when the predicate
    holds of a single element. *)
Lemma find_unique (l : list A) (x : A) :
  In x l -> p x = true ->
  (forall y, In y l -> p y = true -> y = x) ->
  find p l = Some x.
Proof.
  intros Hin Hp Huniq.
  destruct (find p l) as [y|] eqn:Hf.
  - apply find_some in Hf. destruct Hf as [Hy Hpy].
    f_equal. now apply Huniq.
  - apply (find_none p l Hf) in Hin. congruence.
Qed.

(** Two visiting orders of the same entries find the same one, as soon
    as no two entries satisfy the predicate. *)
Lemma find_permutation (l1 l2 : list A) :
  Permutation l1 l2 ->
  (forall x y, In x l1 -> In y l1 -> p x = true -> p y = true -> x = y) ->
  find p l1 = find p l2.
Proof.
  intros Hperm Hone.
  destruct (find p l1) as [x|] eqn:H1.
  - apply find_some in H1. destruct H1 as [Hx Hpx].
    symmetry. apply find_unique; trivial.
    + now apply (Permutation_in x Hperm).
    + intros y Hy Hpy. apply Hone; trivial.
      now apply (Permutation_in y (Permutation_sym Hperm)).
  - destruct (find p l2) as [y|] eqn:H2; trivial.
    apply find_some in H2. destruct H2 as [Hy Hpy].
    apply (Permutation_in y (Permutation_sym Hperm)) in Hy.
    apply (find_none p l1 H1) in Hy. congruence.
Qed.

End Range.

(** ** Lower-casing and prefixes *)

Lemma mapBytes_nonempty (f : ascii -> ascii) (s : string) :
  strings.mapBytes f s = "" -> s = "".
Proof. destruct s; simpl; [trivial | discriminate]. Qed.

Lemma ToLower_nonempty (lower : string -> string) (s : string) :
  (forall x, lower x = "" -> x = "") ->
  strings.ToLower lower s = "" -> s = "".
Proof.
  intros Hl. unfold strings.ToLower.
  destruct (strings.allASCII s); [apply mapBytes_nonempty | apply Hl].
Qed.

(** A non-empty prefix fixes the first byte. *)
Lemma HasPrefix_head (c d : ascii) (q n : string) :
  strings.HasPrefix (String d n) (String c q) = true -> c = d.
Proof.
  unfold strings.HasPrefix. simpl.
  destruct (ascii_dec c d); [trivial | discriminate].
Qed.

Lemma HasPrefix_empty_name (c : ascii) (q : string) :
  strings.HasPrefix "" (String c q) = false.
Proof. reflexivity. Qed.

(** Every string has the empty prefix. *)
Lemma HasPrefix_empty (s : string) : strings.HasPrefix s "" = true.
Proof. destruct s; reflexivity. Qed.

(** ** Level names *)

Ltac each_entry H :=
  simpl in H;
  repeat (destruct H as [H | H]; [try (symmetry in H); subst | ]);
  try contradiction.

(** C6.  In the go-kit revision, for every level [l] that has an entry
    in [levelNames], parsing the name [l.String()] gives [l] back,
    whatever order the map is visited in. *)
Theorem Kit_ParseLevel_String (lower : string -> string)
        (order : list (Kit.Level * string)) (l : Kit.Level) :
  Kit.range_order order ->
  In l (map fst Kit.levelNames) ->
  Kit.ParseLevel lower order (Kit.Level_String l) = l.
Proof.
  intros Hperm Hl. unfold Kit.ParseLevel.
  assert (Hfind : find (fun e => strings.HasPrefix (snd e)
                                  (strings.ToLower lower (Kit.Level_String l))) order
                  = Some (l, Kit.Level_String l)).
  { apply find_unique.
    - apply (Permutation_in _ (Permutation_sym Hperm)).
      each_entry Hl; simpl; tauto.
    - each_entry Hl; reflexivity.
    - intros y Hy Hpy. apply (Permutation_in _ Hperm) in Hy.
      each_entry Hl; each_entry Hy; trivial; discriminate Hpy. }
  now rewrite Hfind.
Qed.

Lemma Kit_ParseLevel_String_witness :
  Kit.ParseLevel (fun s => s) (rev Kit.levelNames) (Kit.Level_String Kit.Warn)
  = Kit.Warn.
Proof.
  apply (Kit_ParseLevel_String (fun s => s) (rev Kit.levelNames) Kit.Warn).
  - unfold Kit.range_order. apply Permutation_sym, Permutation_rev.
  - simpl. tauto.
Defined.

(** With the empty input every name matches, so the level returned is
    the one of the entry visited first. *)
Lemma ParseLevel_empty_first (lower : string -> string)
      (e : slog.Level * string) (rest : list (slog.Level * string)) :
  SlogLevels.ParseLevel lower (e :: rest) "" = fst e.
Proof.
  unfold SlogLevels.ParseLevel. simpl. now rewrite HasPrefix_empty.
Qed.

(** C7.  [ParseLevel("")] with the map visited from the ["fatal"] entry
    on: the visiting order is one the language allows, and the result is
    [LevelFatal], not [LevelAll]. *)
Theorem ParseLevel_empty_fatal (lower : string -> string) :
  let order := [(SlogLevels.LevelFatal, "fatal"); (SlogLevels.LevelAll, "all");
                (slog.LevelError, "err"); (slog.LevelWarn, "warn");
                (slog.LevelInfo, "info"); (slog.LevelDebug, "debug")] in
  SlogLevels.range_order order
  /\ SlogLevels.ParseLevel lower order "" = SlogLevels.LevelFatal
  /\ SlogLevels.LevelFatal <> SlogLevels.LevelAll.
Proof.
  cbv zeta. split; [| split].
  - unfold SlogLevels.range_order, SlogLevels.levelNames. apply perm_swap.
  - apply ParseLevel_empty_first.
  - discriminate.
Qed.

(** The part of C7 that holds: an input whose lower-cased form is not
    empty and is a prefix of no level name parses to [LevelAll]. *)
Lemma ParseLevel_unmatched (lower : string -> string)
      (order : list (slog.Level * string)) (s : string) :
  SlogLevels.range_order order ->
  (forall e, In e SlogLevels.levelNames ->
             strings.HasPrefix (snd e) (strings.ToLower lower s) = false) ->
  SlogLevels.ParseLevel lower order s = SlogLevels.LevelAll.
Proof.
  intros Hperm Hno. unfold SlogLevels.ParseLevel. cbv zeta.
  destruct (find _ order) as [e|] eqn:Hf; trivial.
  apply find_some in Hf. destruct Hf as [Hin Hp].
  apply (Permutation_in _ Hperm) in Hin.
  rewrite (Hno e Hin) in Hp. discriminate.
Qed.

(** No two level names start with the same byte. *)
Lemma levelNames_one_match (c : ascii) (q : string) (e1 e2 : slog.Level * string) :
  In e1 SlogLevels.levelNames -> In e2 SlogLevels.levelNames ->
  strings.HasPrefix (snd e1) (String c q) = true ->
  strings.HasPrefix (snd e2) (String c q) = true ->
  e1 = e2.
Proof.
  intros I1 I2 P1 P2.
  each_entry I1; each_entry I2; trivial;
    cbn [snd] in P1, P2; apply HasPrefix_head in P1; apply HasPrefix_head in P2;
    congruence.
Qed.

(** C10.  For a non-empty input, at most one level name has the
    lower-cased input as a prefix, and [ParseLevel] returns the same
    level for any two orders in which the map may be visited. *)
Theorem ParseLevel_deterministic (lower : string -> string) (s : string)
        (o1 o2 : list (slog.Level * string)) :
  (forall x, lower x = "" -> x = "") ->
  s <> "" ->
  SlogLevels.range_order o1 -> SlogLevels.range_order o2 ->
  (forall e1 e2, In e1 SlogLevels.levelNames -> In e2 SlogLevels.levelNames ->
     strings.HasPrefix (snd e1) (strings.ToLower lower s) = true ->
     strings.HasPrefix (snd e2) (strings.ToLower lower s) = true ->
     e1 = e2)
  /\ SlogLevels.ParseLevel lower o1 s = SlogLevels.ParseLevel lower o2 s.
Proof.
  intros Hlower Hs H1 H2.
  unfold SlogLevels.ParseLevel. cbv zeta.
  destruct (strings.ToLower lower s) as [|c q] eqn:E.
  - elim Hs. now apply (ToLower_nonempty lower).
  - split.
    + intros e1 e2. apply levelNames_one_match.
    + rewrite (find_permutation _ o1 o2); trivial.
      * unfold SlogLevels.range_order in *.
        eapply Permutation_trans; [exact H1 | now apply Permutation_sym].
      * intros x y Hx Hy. apply levelNames_one_match;
          now apply (Permutation_in _ H1).
Qed.

Lemma ParseLevel_deterministic_witness :
  SlogLevels.ParseLevel (fun s => s) SlogLevels.levelNames "WARN"
  = SlogLevels.ParseLevel (fun s => s) (rev SlogLevels.levelNames) "WARN".
Proof.
  apply (ParseLevel_deterministic (fun s => s) "WARN"
           SlogLevels.levelNames (rev SlogLevels.levelNames)).
  - intros x Hx. exact Hx.
  - discriminate.
  - apply Permutation_refl.
  - unfold SlogLevels.range_order. apply Permutation_sym, Permutation_rev.
Defined.

(** ** The handler at work *)

Lemma accepts_app (rep : slog.Attr -> option slog.Attr) (a b : list slog.Attr) :
  slogger.accepts rep (a ++ b) = slogger.accepts rep a && slogger.accepts rep b.
Proof. apply forallb_app. Qed.

(** The built-in attributes hold a time, a level and a string: the
    closure of [New] returns for them. *)
Lemma builtins_accepted (tf : option TimeFormatterFunc) (t : Time)
      (lvl : slog.Level) (msg : string) :
  slogger.accepts (SlogLevels.ReplaceAttr tf)
    [(slog.TimeKey, ATime t); (slog.LevelKey, ALevel lvl);
     (slog.MessageKey, AString msg)] = true.
Proof. destruct tf; reflexivity. Qed.

Lemma Log_call_outcome (tf : option TimeFormatterFunc) (h : slog.Handler)
      (t : Time) (lvl : slog.Level) (msg : string) (args : list any) :
  slogger.Log_call (SlogLevels.ReplaceAttr tf) h t lvl msg args
  = if slog.threshold h <=? lvl
    then if slogger.accepts (SlogLevels.ReplaceAttr tf) (slog.argsToAttrs args)
         then Returns [EvSlog h {| slog.time := t; slog.level := lvl;
                                   slog.msg := msg;
                                   slog.rattrs := slog.argsToAttrs args |}]
         else Panics []
    else Returns [].
Proof.
  unfold slogger.Log_call, slog.Enabled.
  now rewrite accepts_app, builtins_accepted.
Qed.

(** [log] of the latest revision as a call, case by case. *)
Lemma SlogB_log_call_outcome (r : SlogB.L) (e : Env) (lvl : slog.Level)
      (msg : any) (keyvals : list any) :
  SlogB.L_log_call (Some r) e lvl msg keyvals
  = if slog.threshold (SlogB.slogger r) <=? lvl
    then if takes r (logArgs r e keyvals)
         then Returns [EvSlog (SlogB.slogger r)
                         {| slog.time := now e; slog.level := lvl;
                            slog.msg := SlogB.toString msg;
                            slog.rattrs := slog.argsToAttrs (logArgs r e keyvals) |}]
         else Panics []
    else Returns [].
Proof.
  unfold SlogB.L_log_call. cbv zeta. fold (logArgs r e keyvals).
  apply Log_call_outcome.
Qed.

Lemma SlogA_log_call_outcome (r : SlogA.L) (e : Env) (lvl : slog.Level)
      (msg : string) (keyvals : list any) :
  SlogA.L_log_call (Some r) e lvl msg keyvals
  = if slog.threshold (SlogA.slogger r) <=? lvl
    then if takesA r (logArgsA r e keyvals)
         then Returns [EvSlog (SlogA.slogger r)
                         {| slog.time := now e; slog.level := lvl;
                            slog.msg := msg;
                            slog.rattrs := slog.argsToAttrs (logArgsA r e keyvals) |}]
         else Panics []
    else Returns [].
Proof.
  unfold SlogA.L_log_call. cbv zeta. fold (logArgsA r e keyvals).
  apply Log_call_outcome.
Qed.

(** ** Level filtering *)

Lemma With_threshold (h : slog.Handler) (args : list any) :
  slog.threshold (slog.With h args) = slog.threshold h.
Proof. destruct args; reflexivity. Qed.

Lemma Log_enabled (h : slog.Handler) (t : Time) (lvl : slog.Level)
      (msg : string) (args : list any) :
  slogger.Log h t lvl msg args <> [] <-> slog.threshold h <= lvl.
Proof.
  unfold slogger.Log, slog.Enabled.
  destruct (Z.leb_spec (slog.threshold h) lvl); split; intros; try lia; congruence.
Qed.

Lemma Kit_log_passes (r : Kit.L) (e : Env) (M : Kit.Level)
      (lvl : kitlog.Logger) (keyvals : list any) :
  (M <= Kit.L_Level r \/ Kit.L_Level r = Kit.All)
  <-> Kit.L_log (Some r) e M lvl keyvals
      = [EvKit (kitlog.dest lvl) (kitlog.format lvl) (kitlog.Log e lvl keyvals)].
Proof.
  unfold Kit.L_log.
  destruct (Z.ltb_spec (Kit.L_Level r) M);
    destruct (Z.eqb_spec (Kit.L_Level r) Kit.All); simpl;
    split; intros; try reflexivity; try discriminate; try lia; tauto.
Qed.

Lemma Kit_log_drops (r : Kit.L) (e : Env) (M : Kit.Level)
      (lvl : kitlog.Logger) (keyvals : list any) :
  (Kit.L_Level r < M /\ Kit.L_Level r <> Kit.All)
  <-> Kit.L_log (Some r) e M lvl keyvals = [].
Proof.
  unfold Kit.L_log.
  destruct (Z.ltb_spec (Kit.L_Level r) M);
    destruct (Z.eqb_spec (Kit.L_Level r) Kit.All); simpl;
    split; intros; try reflexivity; try discriminate; try lia; tauto.
Qed.

Lemma SlogA_log_passes (r : SlogA.L) (e : Env) (M : slog.Level)
      (msg : string) (keyvals : list any) :
  slog.threshold (SlogA.slogger r) <= M
  <-> SlogA.L_log (Some r) e M msg keyvals <> [].
Proof. unfold SlogA.L_log. symmetry. apply Log_enabled. Qed.

Lemma SlogA_log_drops (r : SlogA.L) (e : Env) (M : slog.Level)
      (msg : string) (keyvals : list any) :
  M < slog.threshold (SlogA.slogger r)
  <-> SlogA.L_log (Some r) e M msg keyvals = [].
Proof.
  pose proof (SlogA_log_passes r e M msg keyvals) as Hp.
  destruct (SlogA.L_log (Some r) e M msg keyvals) eqn:E.
  - split; trivial. intros _.
    destruct (Z.lt_ge_cases M (slog.threshold (SlogA.slogger r))); trivial.
    destruct Hp as [Hp _]. elim Hp; [lia | reflexivity].
  - split; [| discriminate]. intros Hlt.
    destruct Hp as [_ Hp]. assert (slog.threshold (SlogA.slogger r) <= M)
      by (apply Hp; discriminate). lia.
Qed.

(** The level filter, for a message at level [M] on a logger with
    threshold [T].

    In the go-kit revision levels are numbered from the most severe
    ([Fatal] = 1) to the least severe ([Debug] = 5), [All] is 0, the
    threshold of a logger is the parsed level name, and [log] hands the
    record to the backend exactly when [M <= T] or [T = All]; otherwise
    the call has no effect.

    In the first slog revision the threshold of the handler is the
    parsed level name as well, levels grow with severity, and
    [LevelAll] is below the level of every logging method.  In both
    slog revisions a message below the threshold is dropped, and one
    that the threshold admits is handed to the handler as one record,
    unless the handler faults on a field. *)
Theorem level_filter :
  (forall lower order w name level format keyvals,
      Kit.L_Level (Kit.New lower order w name level format keyvals)
      = Kit.ParseLevel lower order level)
  /\ (forall (r : Kit.L) e M lvl keyvals,
         (M <= Kit.L_Level r \/ Kit.L_Level r = Kit.All)
         <-> Kit.L_log (Some r) e M lvl keyvals
             = [EvKit (kitlog.dest lvl) (kitlog.format lvl) (kitlog.Log e lvl keyvals)])
  /\ (forall (r : Kit.L) e M lvl keyvals,
         (Kit.L_Level r < M /\ Kit.L_Level r <> Kit.All)
         <-> Kit.L_log (Some r) e M lvl keyvals = [])
  /\ (forall (r : Kit.L) e M msg keyvals,
         (Kit.L_Level r < M /\ Kit.L_Level r <> Kit.All)
         <-> trace (Kit.leveled (Some r) e M msg keyvals) = [])
  /\ (forall p order ts opts,
         slog.threshold (SlogA.slogger (SlogA.New p order ts opts))
         = SlogLevels.ParseLevel (unicodeLower p) order
             (Options.level (Options.apply opts (Options.defaults p))))
  /\ (forall (r : SlogA.L) e M msg keyvals,
         SlogA.L_log_call (Some r) e M msg keyvals
         = if slog.threshold (SlogA.slogger r) <=? M
           then if takesA r (logArgsA r e keyvals)
                then Returns [EvSlog (SlogA.slogger r)
                                {| slog.time := now e; slog.level := M;
                                   slog.msg := msg;
                                   slog.rattrs :=
                                     slog.argsToAttrs (logArgsA r e keyvals) |}]
                else Panics []
           else Returns [])
  /\ (forall (r : SlogB.L) e M (text : string) keyvals,
         SlogB.L_log_call (Some r) e M (AString text) keyvals
         = if slog.threshold (SlogB.slogger r) <=? M
           then if takes r (logArgs r e keyvals)
                then Returns [EvSlog (SlogB.slogger r)
                                {| slog.time := now e; slog.level := M;
                                   slog.msg := text;
                                   slog.rattrs :=
                                     slog.argsToAttrs (logArgs r e keyvals) |}]
                else Panics []
           else Returns [])
  /\ forallb (fun M => SlogLevels.LevelAll <=? M)
       [slog.LevelDebug; slog.LevelInfo; slog.LevelWarn; slog.LevelError;
        SlogLevels.LevelFatal] = true.
Proof.
  split; [reflexivity |].
  split; [apply Kit_log_passes |].
  split; [apply Kit_log_drops |].
  split; [intros; unfold Kit.leveled; cbn [trace]; apply Kit_log_drops |].
  split; [intros; cbv beta iota zeta delta [SlogA.New SlogA.slogger];
          now rewrite With_threshold |].
  split; [apply SlogA_log_call_outcome |].
  split; [| reflexivity].
  intros. apply SlogB_log_call_outcome.
Qed.

(** ** The error argument of [LogError] *)

(** The loop of [LogError] completes exactly when no wrapped error is nil. *)
Lemma errorAttrs_completes (errs : list (option error)) (i : nat) :
  (exists attrs, SlogB.errorAttrs i errs = Some attrs) <-> forallb non_nil errs = true.
Proof.
  revert i. induction errs as [| e rest IH]; intros i; simpl.
  - split; [trivial | intros _; now exists []].
  - destruct e as [e|]; simpl.
    + rewrite <- (IH (S i)). split.
      * intros [attrs H]. destruct (SlogB.errorAttrs (S i) rest) as [kvs|];
          [now exists kvs | discriminate].
      * intros [kvs H]. rewrite H. eexists. reflexivity.
    + split; [intros [attrs H]; discriminate | discriminate].
Qed.

(** On a nil handle [LogError] still evaluates the messages of the
    errors before it reaches the guard of [log]. *)
Lemma LogError_nil (e : Env) (msg : string) (err : option error)
      (keyvals : list any) :
  SlogB.L_LogError None e msg err keyvals
  = if usable err then Returns [] else Panics [].
Proof.
  unfold SlogB.L_LogError.
  destruct err as [[text | text errs] |]; simpl; trivial.
  pose proof (errorAttrs_completes errs 0) as H.
  destruct (SlogB.errorAttrs 0 errs) as [attrs|];
    destruct (forallb non_nil errs); trivial.
  - destruct H as [H _]. discriminate H. now exists attrs.
  - destruct H as [_ H]. destruct (H eq_refl). discriminate.
Qed.

(** In the go-kit revision the leveled methods read [l.logger] and
    [l.src] to build the arguments of [log]: on a nil handle they fault
    before the guard of [log] is reached. *)
Lemma Kit_nil_handle_faults (e : Env) (lvl : Kit.Level) (msg : any)
      (keyvals : list any) :
  Kit.leveled None e lvl msg keyvals = Panics [].
Proof. reflexivity. Qed.

(** ** Nil handles *)

(** C2, as the code has it, in the latest revision.  On a nil handle
    [Debug], [Info], [Warn] and [Err] return having done nothing; [Fatal]
    writes nothing and calls [os.Exit(1)]; [LogError] returns having done
    nothing when its error argument is usable (not nil, no nil wrapped
    error), and faults otherwise. *)
Theorem nil_handle (e : Env) (msg : any) (text : string) (err : option error)
        (keyvals : list any) :
  SlogB.L_Debug None e msg keyvals = Returns []
  /\ SlogB.L_Info None e msg keyvals = Returns []
  /\ SlogB.L_Warn None e msg keyvals = Returns []
  /\ SlogB.L_Err None e msg keyvals = Returns []
  /\ SlogB.L_Fatal None e msg keyvals = Returns [EvExit 1]
  /\ SlogB.L_LogError None e text err keyvals
     = if usable err then Returns [] else Panics [].
Proof.
  repeat split; try reflexivity. apply LogError_nil.
Qed.

(** C2 fails for [Fatal]: on a nil handle the call is not a no-op, it
    ends the process. *)
Lemma nil_handle_Fatal_exits :
  SlogB.L_Fatal None sampleEnv (AString "boom") [] = Returns [EvExit 1]
  /\ SlogB.L_Fatal None sampleEnv (AString "boom") [] <> Returns [].
Proof. split; [reflexivity | discriminate]. Qed.

(** ** [Fatal] *)



(** Every level name parses to a threshold that admits [LevelFatal], so
    a handle whose threshold was parsed writes the record of [Fatal]. *)
Lemma ParseLevel_admits_Fatal (lower : string -> string)
      (order : list (slog.Level * string)) (s : string) :
  SlogLevels.range_order order ->
  SlogLevels.ParseLevel lower order s <= SlogLevels.LevelFatal.
Proof.
  intros Hperm. unfold SlogLevels.ParseLevel. cbv zeta.
  destruct (find _ order) as [x|] eqn:Hf; [| discriminate].
  apply find_some in Hf. destruct Hf as [Hin _].
  apply (Permutation_in _ Hperm) in Hin. each_entry Hin; discriminate.
Qed.

(** ** Sub-loggers *)

Lemma With_attrs (h : slog.Handler) (args : list any) :
  slog.attrs (slog.With h args) = slog.attrs h ++ slog.argsToAttrs args.
Proof. destruct args; simpl; [now rewrite app_nil_r | reflexivity]. Qed.

(** In the latest revision a sub-logger extends the source segments by
    the name, binds one more [src] attribute holding the dotted path,
    and copies both caller settings. *)
Lemma SlogB_sublogger (l : SlogB.L) (name : string) :
  SlogB.src (SlogB.L_New l name) = SlogB.src l ++ [name]
  /\ slog.attrs (SlogB.slogger (SlogB.L_New l name))
     = slog.attrs (SlogB.slogger l)
         ++ [("src", AString (strings.Join (SlogB.src l ++ [name]) "."))]
  /\ SlogB.showCaller (SlogB.L_New l name) = SlogB.showCaller l
  /\ SlogB.callerPrefixTrim (SlogB.L_New l name) = SlogB.callerPrefixTrim l.
Proof. repeat split. Qed.

Lemma SlogB_grandchild (p : Proc) (ts : Time) :
  let root := SlogB.New p ts [Options.WithName "somelogger"] in
  let grandchild := SlogB.L_New (SlogB.L_New root "sublogger") "grandchild" in
  SlogB.src grandchild = ["somelogger"; "sublogger"; "grandchild"]
  /\ last (slog.attrs (SlogB.slogger grandchild)) ("", AString "")
     = ("src", AString "somelogger.sublogger.grandchild").
Proof. split; reflexivity. Qed.

(** C5 on the first slog revision.  Its sub-logger gets the extended
    source segments and the dotted [src] attribute, but the struct
    literal leaves [showCaller] out: a root built with the defaults
    shows the caller, its sub-logger does not, and what the sub-logger
    hands to the backend carries no [caller] attribute while the root
    adds one. *)
Theorem SlogA_sublogger_drops_showCaller (p : Proc)
        (order : list (slog.Level * string)) (ts : Time) (e : Env)
        (lvl : slog.Level) (keyvals : list any) :
  let root := SlogA.New p order ts [Options.WithName "somelogger"] in
  let sub := SlogA.L_New root "sublogger" in
  SlogA.src sub = ["somelogger"; "sublogger"]
  /\ last (slog.attrs (SlogA.slogger sub)) ("", AString "")
     = ("src", AString "somelogger.sublogger")
  /\ SlogA.showCaller root = true
  /\ SlogA.showCaller sub = false
  /\ SlogA.L_log (Some root) e lvl "sub" keyvals
     = slogger.Log (SlogA.slogger root) (now e) lvl "sub"
         (keyvals ++ [slog.String_ "caller" (callers e 3)])
  /\ SlogA.L_log (Some sub) e lvl "sub" keyvals
     = slogger.Log (SlogA.slogger sub) (now e) lvl "sub" keyvals.
Proof. cbv zeta. repeat split. Qed.

(** ** Option assembly *)

Lemma apply_app (xs ys : list Options.Option) (o : Options.options) :
  Options.apply (xs ++ ys) o = Options.apply ys (Options.apply xs o).
Proof. unfold Options.apply. apply fold_left_app. Qed.

Lemma apply_keeps (post : list Options.Option) (o : Options.options) :
  Forall keeps_keyvals post ->
  Options.keyvals (Options.apply post o) = Options.keyvals o.
Proof.
  intros H. revert o. induction H as [| f post Hf _ IH]; intros o.
  - reflexivity.
  - unfold Options.apply in *. simpl. rewrite IH. apply Hf.
Qed.

(** Every mutator of [options.go] other than [With] keeps the static
    fields. *)
Lemma other_options_keep (p : Proc) (s : string) (w : Writer) (b : bool)
      (path : option string) :
  Forall keeps_keyvals
    [Options.WithFormat s; Options.WithLevel s; Options.WithDestination w;
     Options.WithName s; Options.WithCaller b; Options.WithTimeLocation p s;
     Options.WithCallerPrefixTrim s; Options.WithAutoCallerPrefixTrim path].
Proof.
  repeat constructor; intros o; try reflexivity.
  - unfold Options.WithCallerPrefixTrim. now destruct (String.eqb s "").
  - destruct path as [path|]; [| reflexivity].
    unfold Options.WithAutoCallerPrefixTrim, Options.WithCallerPrefixTrim.
    now destruct (String.eqb path "").
Qed.

(** C8.  With options [pre], then [With(keyvals...)], then options
    [post] none of which is a [With]: the static fields of the option
    record are exactly [keyvals], whatever [pre] holds, and the handler
    of the logger binds them followed by the [src] attribute. *)
Theorem last_With_replaces (p : Proc) (ts : Time)
        (pre post : list Options.Option) (keyvals : list any) :
  Forall keeps_keyvals post ->
  let opts := pre ++ Options.With keyvals :: post in
  Options.keyvals (Options.apply opts (Options.defaults p)) = keyvals
  /\ slog.attrs (SlogB.slogger (SlogB.New p ts opts))
     = slog.argsToAttrs
         (keyvals ++ [slog.String_ "src"
                        (Options.name (Options.apply opts (Options.defaults p)))]).
Proof.
  intros Hpost opts.
  assert (Hk : Options.keyvals (Options.apply opts (Options.defaults p)) = keyvals).
  { unfold opts. rewrite apply_app.
    change (Options.With keyvals :: post) with ([Options.With keyvals] ++ post).
    rewrite apply_app. now rewrite apply_keeps. }
  split; [exact Hk |].
  cbv beta iota zeta delta [SlogB.New SlogB.slogger].
  rewrite With_attrs, Hk. reflexivity.
Qed.

Lemma last_With_replaces_witness :
  Options.keyvals
    (Options.apply
       ([Options.With [AString "key0"; AString "value0"]; Options.WithName "somelogger"]
          ++ Options.With [AString "key1"; AString "value1"]
          :: [Options.WithLevel "info"])
       (Options.defaults sampleProc))
  = [AString "key1"; AString "value1"].
Proof.
  apply (last_With_replaces sampleProc (now sampleEnv)
           [Options.With [AString "key0"; AString "value0"];
            Options.WithName "somelogger"]
           [Options.WithLevel "info"]
           [AString "key1"; AString "value1"]).
  repeat constructor.
Defined.

(** ** Arguments and attributes *)

Lemma argsToAttrs_other (x : any) (rest : list any) :
  isString x = false ->
  slog.argsToAttrs (x :: rest)
  = match x with AAttr k v => (k, v) | _ => (slog.badKey, x) end
      :: slog.argsToAttrs rest.
Proof. destruct x; simpl; intros; try discriminate; reflexivity. Qed.

Lemma paired_other (x : any) (rest : list any) :
  isString x = false -> paired (x :: rest) = paired rest.
Proof. destruct x; simpl; intros; try discriminate; reflexivity. Qed.

(** Complete pairs are converted on their own: what follows them is
    converted as if it came first. *)
Lemma argsToAttrs_app (a b : list any) :
  paired a = true ->
  slog.argsToAttrs (a ++ b) = slog.argsToAttrs a ++ slog.argsToAttrs b.
Proof.
  enough (H : (paired a = true ->
               slog.argsToAttrs (a ++ b) = slog.argsToAttrs a ++ slog.argsToAttrs b)
              /\ (forall x, paired (x :: a) = true ->
                    slog.argsToAttrs ((x :: a) ++ b)
                    = slog.argsToAttrs (x :: a) ++ slog.argsToAttrs b))
    by apply H.
  induction a as [| y a [IH0 IH1]].
  - split; [reflexivity |].
    intros x Hx. destruct x; simpl in *; try discriminate; reflexivity.
  - split; [apply IH1 |].
    intros x Hx. rewrite <- app_comm_cons.
    destruct (isString x) eqn:Ex.
    + destruct x; try discriminate Ex.
      change (paired a = true) in Hx.
      rewrite <- app_comm_cons.
      change ((s, y) :: slog.argsToAttrs (a ++ b)
              = ((s, y) :: slog.argsToAttrs a) ++ slog.argsToAttrs b).
      now rewrite (IH0 Hx).
    + rewrite (paired_other x _ Ex) in Hx.
      rewrite !(argsToAttrs_other x _ Ex), (IH1 y Hx). reflexivity.
Qed.

Lemma paired_app (a b : list any) :
  paired a = true -> paired b = true -> paired (a ++ b) = true.
Proof.
  intros Ha Hb.
  enough (H : (paired a = true -> paired (a ++ b) = true)
              /\ (forall x, paired (x :: a) = true -> paired ((x :: a) ++ b) = true))
    by now apply H.
  clear Ha. induction a as [| y a [IH0 IH1]].
  - split; [trivial |].
    intros x Hx. destruct x; simpl in *; try discriminate; trivial.
  - split; [apply IH1 |].
    intros x Hx. rewrite <- app_comm_cons.
    destruct (isString x) eqn:Ex.
    + destruct x; try discriminate Ex.
      change (paired a = true) in Hx. rewrite <- app_comm_cons.
      change (paired (a ++ b) = true). now apply IH0.
    + rewrite (paired_other x (y :: a) Ex) in Hx.
      rewrite (paired_other x _ Ex). now apply IH1.
Qed.

Lemma argsToAttrs_attr (k : string) (v : any) :
  slog.argsToAttrs [AAttr k v] = [(k, v)].
Proof. reflexivity. Qed.

Lemma argsToAttrs_attrs (l : list slog.Attr) :
  slog.argsToAttrs (map (fun a => AAttr (fst a) (snd a)) l) = l.
Proof.
  induction l as [| [k v] l IH]; simpl; [reflexivity | now rewrite IH].
Qed.

Lemma paired_attrs (l : list slog.Attr) :
  paired (map (fun a => AAttr (fst a) (snd a)) l) = true.
Proof. induction l as [| [k v] l IH]; simpl; trivial. Qed.

(** ** A call-site field keyed [level] *)

(** C1 fails in the first slog revision.  A message below the
    threshold is dropped, and a message at a level [M] that the
    threshold admits is handed to the handler as one record, which the
    handler writes unless the [ReplaceAttr] closure of [New] faults on a
    field.  It does on a call-site field keyed [level] whose value is a
    string (the closure asserts that the value is a [slog.Level]): with
    complete call-site fields followed by such a field the call does
    not return and no record is written, although the threshold admits
    the message. *)
Theorem level_field_faults (r : SlogA.L) (e : Env) (M : slog.Level)
        (msg : string) (keyvals : list any) (v : string) :
  SlogA.L_log_call (Some r) e M msg keyvals
  = (if slog.threshold (SlogA.slogger r) <=? M
     then if takesA r (logArgsA r e keyvals)
          then Returns [EvSlog (SlogA.slogger r)
                          {| slog.time := now e; slog.level := M;
                             slog.msg := msg;
                             slog.rattrs := slog.argsToAttrs (logArgsA r e keyvals) |}]
          else Panics []
     else Returns [])
  /\ (slog.threshold (SlogA.slogger r) <= M ->
      paired keyvals = true ->
      SlogA.L_log_call (Some r) e M msg
        (keyvals ++ [AString slog.LevelKey; AString v])
      = Panics []).
Proof.
  split; [apply SlogA_log_call_outcome |].
  intros Hthr Hp. rewrite SlogA_log_call_outcome.
  apply Z.leb_le in Hthr. rewrite Hthr.
  assert (Hq : paired (keyvals ++ [AString slog.LevelKey; AString v]) = true)
    by (apply paired_app; trivial).
  assert (Hargs : takesA r (logArgsA r e (keyvals ++ [AString slog.LevelKey; AString v]))
                  = false).
  { unfold takesA, logArgsA.
    assert (Hbad : slogger.accepts
                     (SlogLevels.ReplaceAttr (slog.timeFormatter (SlogA.slogger r)))
                     (slog.argsToAttrs [AString slog.LevelKey; AString v]) = false)
      by reflexivity.
    destruct (SlogA.showCaller r).
    - rewrite (argsToAttrs_app _ _ Hq), (argsToAttrs_app _ _ Hp), !accepts_app, Hbad.
      now rewrite andb_false_r.
    - rewrite (argsToAttrs_app _ _ Hp), accepts_app, Hbad.
      now rewrite andb_false_r. }
  now rewrite Hargs.
Qed.

Lemma level_field_faults_witness :
  slog.threshold
    (SlogA.slogger
       (SlogA.New sampleProc SlogLevels.levelNames (now sampleEnv)
          [Options.WithLevel "info"])) <= slog.LevelInfo
  /\ SlogA.L_Info
       (Some (SlogA.New sampleProc SlogLevels.levelNames (now sampleEnv)
                [Options.WithLevel "info"]))
       sampleEnv "started" [AString "level"; AString "high"]
     = Panics [].
Proof.
  split; [discriminate |].
  apply (level_field_faults
           (SlogA.New sampleProc SlogLevels.levelNames (now sampleEnv)
              [Options.WithLevel "info"])
           sampleEnv slog.LevelInfo "started" [] "high").
  - discriminate.
  - reflexivity.
Defined.

(** ** [LogError] *)

(** When no wrapped error is nil the loop yields the fields the spec
    words, as [slog.String] arguments. *)
Lemma errorAttrs_indexed (es : list error) (i : nat) :
  SlogB.errorAttrs i (map Some es)
  = Some (map (fun a => AAttr (fst a) (snd a))
            (map (fun ie => (("error_" ++ fmt.pad02 (fst ie))%string,
                             AString (error_Error (snd ie))))
               (combine (seq i (List.length es)) es))).
Proof.
  revert i. induction es as [| x es IH]; intros i; simpl; [reflexivity |].
  now rewrite IH.
Qed.

Lemma indexed_keys_not_error (l : list (nat * error)) :
  existsb (String.eqb "error")
    (map fst (map (fun ie => (("error_" ++ fmt.pad02 (fst ie))%string,
                              AString (error_Error (snd ie)))) l)) = false.
Proof. induction l as [| x l IH]; simpl; trivial. Qed.

(** What [log] hands over for a non-nil handle. *)
Lemma SlogB_log_record (r : SlogB.L) (e : Env) (lvl : slog.Level) (msg : any)
      (keyvals : list any) :
  paired keyvals = true ->
  SlogB.L_log (Some r) e lvl msg keyvals
  = if slog.threshold (SlogB.slogger r) <=? lvl
    then [EvSlog (SlogB.slogger r)
            {| slog.time := now e; slog.level := lvl;
               slog.msg := SlogB.toString msg;
               slog.rattrs := slog.argsToAttrs keyvals ++ callerAttrs r e |}]
    else [].
Proof.
  intros Hp. unfold SlogB.L_log, slogger.Log, slog.Enabled, callerAttrs.
  destruct (slog.threshold (SlogB.slogger r) <=? lvl); trivial.
  destruct (SlogB.showCaller r).
  - now rewrite (argsToAttrs_app _ _ Hp).
  - now rewrite app_nil_r.
Qed.

(** The closure of [New] returns for every attribute whose key is
    neither [time] nor [level]. *)
Lemma plain_accepted (tf : option TimeFormatterFunc) (l : list slog.Attr) :
  plainKeys l = true -> slogger.accepts (SlogLevels.ReplaceAttr tf) l = true.
Proof.
  induction l as [| [k v] l IH]; simpl; trivial.
  intros H. apply andb_prop in H. destruct H as [Hk Hl].
  rewrite (IH Hl). apply negb_true_iff, orb_false_iff in Hk.
  cbn [fst] in Hk. destruct Hk as [Ht Hv]. now rewrite Ht, Hv.
Qed.

Lemma callerAttrs_plain (r : SlogB.L) (e : Env) : plainKeys (callerAttrs r e) = true.
Proof. unfold callerAttrs. now destruct (SlogB.showCaller r). Qed.

Lemma indexed_keys_plain (l : list (nat * error)) :
  plainKeys (map (fun ie => (("error_" ++ fmt.pad02 (fst ie))%string,
                             AString (error_Error (snd ie)))) l) = true.
Proof. induction l as [| x l IH]; simpl; trivial. Qed.

(** The attributes of the arguments [log] passes on, when the call-site
    fields are complete pairs followed by attributes of the package. *)
Lemma logArgs_attrs (r : SlogB.L) (e : Env) (keyvals : list any)
      (fields : list slog.Attr) :
  paired keyvals = true ->
  slog.argsToAttrs
    (logArgs r e (keyvals ++ map (fun a => AAttr (fst a) (snd a)) fields))
  = slog.argsToAttrs keyvals ++ fields ++ callerAttrs r e.
Proof.
  intros Hp. unfold logArgs, callerAttrs.
  assert (Hq : paired (keyvals ++ map (fun a => AAttr (fst a) (snd a)) fields) = true)
    by (apply paired_app; [exact Hp | apply paired_attrs]).
  destruct (SlogB.showCaller r).
  - rewrite (argsToAttrs_app _ _ Hq), (argsToAttrs_app _ _ Hp), argsToAttrs_attrs.
    now rewrite <- app_assoc.
  - now rewrite (argsToAttrs_app _ _ Hp), argsToAttrs_attrs, app_nil_r.
Qed.

(** [log] as a call with such arguments: the handler faults on the
    call-site fields or not at all. *)
Lemma SlogB_log_call_fields (r : SlogB.L) (e : Env) (lvl : slog.Level) (msg : any)
      (keyvals : list any) (fields : list slog.Attr) :
  paired keyvals = true -> plainKeys fields = true ->
  SlogB.L_log_call (Some r) e lvl msg
    (keyvals ++ map (fun a => AAttr (fst a) (snd a)) fields)
  = if slog.threshold (SlogB.slogger r) <=? lvl
    then if takes r keyvals
         then Returns [EvSlog (SlogB.slogger r)
                         {| slog.time := now e; slog.level := lvl;
                            slog.msg := SlogB.toString msg;
                            slog.rattrs := slog.argsToAttrs keyvals ++ fields
                                             ++ callerAttrs r e |}]
         else Panics []
    else Returns [].
Proof.
  intros Hp Hf. rewrite SlogB_log_call_outcome.
  unfold takes. rewrite (logArgs_attrs r e keyvals fields Hp).
  rewrite !accepts_app, (plain_accepted _ fields Hf),
    (plain_accepted _ _ (callerAttrs_plain r e)), !andb_true_r.
  reflexivity.
Qed.

(** C4, as the code has it.  For call-site fields given as complete
    key/value pairs, [LogError] calls [log] at [slog.LevelError] with
    the message; the record the handler is given holds the call-site
    fields first, then: for a plain error the single field [error] with
    the message of the error; for an error wrapping the errors [es] one
    field per wrapped error, in order, keyed ["error_"] and the index as
    [%02d] prints it, with the message of that error, and none keyed
    [error]; then the caller attribute when caller display is on.  The
    indices 0 to 99 are printed with two digits.  Nothing is handed over
    on a nil handle or under a threshold above the error level. *)
Theorem LogError_fields (l : option SlogB.L) (e : Env) (msg text : string)
        (es : list error) (keyvals : list any) :
  paired keyvals = true ->
  let outcome_with fields :=
    match l with
    | None => Returns []
    | Some r =>
        if slog.threshold (SlogB.slogger r) <=? slog.LevelError
        then if takes r keyvals
             then Returns [EvSlog (SlogB.slogger r)
                             {| slog.time := now e; slog.level := slog.LevelError;
                                slog.msg := msg;
                                slog.rattrs := slog.argsToAttrs keyvals ++ fields
                                                 ++ callerAttrs r e |}]
             else Panics []
        else Returns []
    end in
  SlogB.L_LogError l e msg (Some (PlainError text)) keyvals
  = outcome_with [("error", AString text)]
  /\ SlogB.L_LogError l e msg (Some (MultiError text (map Some es))) keyvals
     = outcome_with (indexedFields es)
  /\ existsb (String.eqb "error") (map fst (indexedFields es)) = false
  /\ forallb (fun i => twoDigitKey ("error_" ++ fmt.pad02 i)) (seq 0 100) = true.
Proof.
  intros Hp outcome_with.
  split; [| split; [| split]].
  - unfold SlogB.L_LogError. simpl Error. cbv iota.
    destruct l as [r |]; [| reflexivity].
    apply (SlogB_log_call_fields r e slog.LevelError (AString msg) keyvals
             [("error", AString text)] Hp eq_refl).
  - unfold SlogB.L_LogError. rewrite errorAttrs_indexed.
    destruct l as [r |]; [| reflexivity].
    apply (SlogB_log_call_fields r e slog.LevelError (AString msg) keyvals
             (indexedFields es) Hp).
    apply indexed_keys_plain.
  - apply indexed_keys_not_error.
  - vm_compute. reflexivity.
Qed.

Lemma LogError_fields_witness :
  recordKeys
    (SlogB.L_LogError
       (Some (SlogB.New sampleProc (now sampleEnv) [Options.WithName "somelogger"]))
       sampleEnv "some error"
       (Some (MultiError "2 errors occurred"
                (map Some [PlainError "some err1"; PlainError "some err2"])))
       [AString "key1"; AString "value1"])
  = ["key1"; "error_00"; "error_01"; "caller"].
Proof.
  pose proof (LogError_fields
                (Some (SlogB.New sampleProc (now sampleEnv)
                         [Options.WithName "somelogger"]))
                sampleEnv "some error" "2 errors occurred"
                [PlainError "some err1"; PlainError "some err2"]
                [AString "key1"; AString "value1"]
                eq_refl) as H.
  cbv zeta in H.
  destruct H as (_ & H & _).
  rewrite H. reflexivity.
Defined.

(** C4 fails when the call-site fields end with a key that has no
    value: in [LogError("some error", err, "k")] the [error] attribute
    becomes the value of [k], and the record has no field keyed
    [error]. *)
Lemma LogError_dangling_key :
  recordKeys
    (SlogB.L_LogError
       (Some (SlogB.New sampleProc (now sampleEnv) [Options.WithName "somelogger"]))
       sampleEnv "some error" (Some (PlainError "boom")) [AString "k"])
  = ["k"; "caller"]
  /\ existsb (String.eqb "error") ["k"; "caller"] = false.
Proof. split; vm_compute; reflexivity. Qed.

(** ** Key order of a record: the go-kit revision *)

(** Induction two elements at a time, the way key/values are read. *)
Lemma list_pair_ind {A : Type} (P : list A -> Prop) :
  P [] -> (forall x, P [x]) -> (forall x y l, P l -> P (x :: y :: l)) ->
  forall l, P l.
Proof.
  intros H0 H1 H2 l.
  enough (H : P l /\ forall x, P (x :: l)) by apply H.
  induction l as [| y l [IHa IHb]]; split; auto.
Qed.

Lemma pad_length_even (l : list any) :
  Nat.even (List.length (kitlog.pad l)) = true.
Proof.
  unfold kitlog.pad. destruct (Nat.odd (List.length l)) eqn:E.
  - rewrite length_app. cbn [List.length].
    rewrite Nat.add_1_r, Nat.even_succ. exact E.
  - unfold Nat.odd in E. now destruct (Nat.even (List.length l)).
Qed.

Lemma pad_even (l : list any) :
  Nat.even (List.length l) = true -> kitlog.pad l = l.
Proof.
  intros H. unfold kitlog.pad, Nat.odd. now rewrite H.
Qed.

Lemma pad_app_even (a b : list any) :
  Nat.even (List.length a) = true -> kitlog.pad (a ++ b) = a ++ kitlog.pad b.
Proof.
  intros H. unfold kitlog.pad, Nat.odd.
  rewrite length_app, Nat.even_add, H. simpl.
  destruct (Nat.even (List.length b)); simpl; [reflexivity | now rewrite app_assoc].
Qed.

Lemma pairs_app (a b : list any) :
  Nat.even (List.length a) = true ->
  kitlog.pairs (a ++ b) = kitlog.pairs a ++ kitlog.pairs b.
Proof.
  induction a as [| x | x y a IH] using list_pair_ind; intros H.
  - reflexivity.
  - discriminate.
  - simpl. rewrite IH; trivial.
Qed.

Lemma pairs_pad (l : list any) : kitlog.pairs (kitlog.pad l) = kitlog.pairs l.
Proof.
  induction l as [| x | x y l IH] using list_pair_ind; trivial.
  assert (Hp : kitlog.pad (x :: y :: l) = x :: y :: kitlog.pad l).
  { unfold kitlog.pad.
    change (Nat.odd (List.length (x :: y :: l))) with (Nat.odd (List.length l)).
    destruct (Nat.odd (List.length l)); reflexivity. }
  rewrite Hp. simpl. now rewrite IH.
Qed.

Lemma keys_app (a b : list any) :
  Nat.even (List.length a) = true ->
  kitlog.keys (a ++ b) = kitlog.keys a ++ kitlog.keys b.
Proof.
  intros H. unfold kitlog.keys. now rewrite pairs_app, map_app.
Qed.

Lemma keys_pad (l : list any) : kitlog.keys (kitlog.pad l) = kitlog.keys l.
Proof. unfold kitlog.keys. now rewrite pairs_pad. Qed.

Lemma bindValues_length (e : Env) (l : list any) :
  List.length (kitlog.bindValues e l) = List.length l.
Proof.
  induction l as [| x | x y l IH] using list_pair_ind; trivial.
  destruct y; simpl; now rewrite IH.
Qed.

(** Binding the valuers changes values only. *)
Lemma keys_bindValues (e : Env) (l : list any) :
  kitlog.keys (kitlog.bindValues e l) = kitlog.keys l.
Proof.
  unfold kitlog.keys.
  induction l as [| x | x y l IH] using list_pair_ind; trivial.
  destruct y; simpl; now rewrite IH.
Qed.

(** The keys of the bound fields come first, then those of the call. *)
Lemma keys_Log (e : Env) (l : kitlog.Logger) (kvs : list any) :
  Nat.even (List.length (kitlog.keyvals l)) = true ->
  kitlog.keys (kitlog.Log e l kvs) = kitlog.keys (kitlog.keyvals l) ++ kitlog.keys kvs.
Proof.
  intros H. unfold kitlog.Log. cbv zeta.
  rewrite (pad_app_even _ _ H), firstn_app, skipn_app, Nat.sub_diag.
  rewrite firstn_all, skipn_all. simpl. rewrite app_nil_r.
  rewrite keys_app by (now rewrite bindValues_length).
  now rewrite keys_bindValues, keys_pad.
Qed.

Lemma With_keyvals_even (l : kitlog.Logger) (kvs : list any) :
  Nat.even (List.length (kitlog.keyvals l)) = true ->
  Nat.even (List.length (kitlog.keyvals (kitlog.With l kvs))) = true.
Proof.
  intros H. destruct kvs; [exact H | apply pad_length_even].
Qed.

Lemma With_keys (l : kitlog.Logger) (kvs : list any) :
  Nat.even (List.length (kitlog.keyvals l)) = true ->
  kitlog.keys (kitlog.keyvals (kitlog.With l kvs))
  = kitlog.keys (kitlog.keyvals l) ++ kitlog.keys kvs.
Proof.
  intros H. destruct kvs as [| x kvs].
  - simpl. now rewrite app_nil_r.
  - unfold kitlog.With. cbn [kitlog.keyvals].
    now rewrite keys_pad, keys_app.
Qed.

(** The fields bound by the constructor: timestamp, caller, then the
    static ones. *)
Lemma Kit_New_keys lower order w name level format (keyvals : list any) :
  let l := Kit.logger (Kit.New lower order w name level format keyvals) in
  Nat.even (List.length (kitlog.keyvals l)) = true
  /\ kitlog.keys (kitlog.keyvals l)
     = [AString "ts"; AString "caller"] ++ kitlog.keys keyvals.
Proof.
  cbv zeta. unfold Kit.New. cbv zeta. cbn [Kit.logger].
  set (w' := match w with Some w0 => w0 | None => Stdout end).
  set (base := if String.eqb _ _ then _ else _).
  assert (Hb : kitlog.keyvals base = []) by (unfold base; now destruct (String.eqb _ _)).
  set (l1 := kitlog.With base _).
  assert (H1 : kitlog.keyvals l1
               = [AString "ts"; AValuer DefaultTimestampUTC;
                  AString "caller"; AValuer (callerValuer 5)]).
  { unfold l1, kitlog.With. cbn [kitlog.keyvals]. rewrite Hb. reflexivity. }
  destruct keyvals as [| x keyvals].
  - change ((0 <? List.length (@nil any))%nat) with false. cbv iota.
    rewrite H1. split; reflexivity.
  - change ((0 <? List.length (x :: keyvals))%nat) with true. cbv iota.
    split.
    + apply pad_length_even.
    + rewrite With_keys by (rewrite H1; reflexivity). now rewrite H1.
Qed.

(** ** Key order of a record: the slog revisions *)

Lemma mapM_app {A B : Type} (f : A -> option B) (a b : list A) :
  slog.mapM f (a ++ b)
  = match slog.mapM f a, slog.mapM f b with
    | Some x, Some y => Some (x ++ y)
    | _, _ => None
    end.
Proof.
  induction a as [| x a IH]; simpl.
  - now destruct (slog.mapM f b).
  - rewrite IH. destruct (f x); trivial.
    destruct (slog.mapM f a); trivial. now destruct (slog.mapM f b).
Qed.

(** Attributes with other keys pass through [ReplaceAttr] unchanged. *)
Lemma mapM_plain (tf : option TimeFormatterFunc) (l : list slog.Attr) :
  plainKeys l = true -> slog.mapM (SlogLevels.ReplaceAttr tf) l = Some l.
Proof.
  induction l as [| [k v] l IH]; simpl; trivial.
  intros H. apply andb_prop in H. destruct H as [Hk Hl].
  rewrite (IH Hl). apply negb_true_iff, orb_false_iff in Hk.
  cbn [fst] in Hk. destruct Hk as [Ht Hv]. now rewrite Ht, Hv.
Qed.

Lemma plainKeys_app (a b : list slog.Attr) :
  plainKeys (a ++ b) = plainKeys a && plainKeys b.
Proof. apply forallb_app. Qed.

(** The built-in attributes of a record pass [ReplaceAttr]: the time
    key becomes [ts], the level is replaced by its label. *)
Lemma builtins_replaced (tf : option TimeFormatterFunc) (r : slog.Record_) :
  exists ts label,
    slog.mapM (SlogLevels.ReplaceAttr tf)
      [(slog.TimeKey, ATime (slog.time r)); (slog.LevelKey, ALevel (slog.level r));
       (slog.MessageKey, AString (slog.msg r))]
    = Some [("ts", ts); ("level", AString label); ("msg", AString (slog.msg r))].
Proof.
  destruct tf as [f|]; simpl; eexists; eexists; reflexivity.
Qed.

(** The line of a record whose attributes have plain keys: time, level
    and message first, then the attributes of the handler, then those of
    the record. *)
Lemma line_keys (h : slog.Handler) (r : slog.Record_) :
  plainKeys (slog.attrs h) = true -> plainKeys (slog.rattrs r) = true ->
  option_map (map fst) (SlogLevels.line h r)
  = Some (["ts"; "level"; "msg"] ++ map fst (slog.attrs h) ++ map fst (slog.rattrs r)).
Proof.
  intros Hh Hr. unfold SlogLevels.line, slog.line.
  rewrite mapM_app.
  destruct (builtins_replaced (slog.timeFormatter h) r) as (ts & label & Hb).
  rewrite Hb, mapM_plain by (now rewrite plainKeys_app, Hh, Hr).
  simpl. now rewrite map_app.
Qed.

(** An attribute keyed [level] whose value is not a [slog.Level] makes
    the type assertion of [ReplaceAttr] fault, and the line with it. *)
Lemma ReplaceAttr_foreign_level (tf : option TimeFormatterFunc) (v : string) :
  SlogLevels.ReplaceAttr tf (slog.LevelKey, AString v) = None.
Proof. reflexivity. Qed.

Lemma kitlog_With_dest (l : kitlog.Logger) (kvs : list any) :
  kitlog.dest (kitlog.With l kvs) = kitlog.dest l
  /\ kitlog.format (kitlog.With l kvs) = kitlog.format l.
Proof. destruct kvs; split; reflexivity. Qed.

(** ** Key order of a record *)

(** C3, as the code has it.  In the go-kit revision a logger built by
    the constructor with the logfmt format hands its encoder, for a
    message that passes the filter, the keys [ts], [caller], the static
    fields in binding order, [src], [level], [msg], then the call-site
    fields.  In the latest revision, when the static and the call-site
    fields are complete key/value pairs with keys other than [time] and
    [level], the constructor returns a logger and a call that passes the
    filter writes one line whose keys are [ts], [level], [msg], the
    static fields in binding order, [src], the call-site fields, and the
    caller last when caller display is on. *)
Theorem record_key_order
        (lower : string -> string) (order : list (Kit.Level * string))
        (w : option Writer) (name level : string) (static : list any)
        (klv : Kit.Level) (kmsg : any) (kkeyvals : list any)
        (p : Proc) (ts : Time) (opts : list Options.Option) (lv : slog.Level)
        (e : Env) (msg : any) (keyvals : list any) :
  let kl := Kit.New lower order w name level Kit.FormatLogFmt static in
  let krec := kitlog.Log e
                (kitlog.With (Kit.logger kl)
                   [AString "src"; AString (Kit.L_source kl);
                    AString "level"; AString (Kit.Level_String klv);
                    AString "msg"; kmsg]) kkeyvals in
  let opt := Options.apply opts (Options.defaults p) in
  let l := SlogB.New p ts opts in
  Kit.leveled (Some kl) e klv kmsg kkeyvals
  = Returns (if (Kit.L_Level kl <? klv) && negb (Kit.L_Level kl =? Kit.All)
             then []
             else [EvKit (match w with None => Stdout | Some w' => w' end)
                     LogFmt krec])
  /\ kitlog.keys krec
     = [AString "ts"; AString "caller"] ++ kitlog.keys static
         ++ [AString "src"; AString "level"; AString "msg"] ++ kitlog.keys kkeyvals
  /\ (paired (Options.keyvals opt) = true ->
      plainKeys (slog.argsToAttrs (Options.keyvals opt)) = true ->
      paired keyvals = true ->
      plainKeys (slog.argsToAttrs keyvals) = true ->
      SlogB.New_call p ts opts = Some l
      /\ faults (SlogB.L_log_call (Some l) e lv msg keyvals) = false
      /\ map lineKeys (trace (SlogB.L_log_call (Some l) e lv msg keyvals))
         = if slog.threshold (SlogB.slogger l) <=? lv
           then [Some (["ts"; "level"; "msg"]
                         ++ map fst (slog.argsToAttrs (Options.keyvals opt))
                         ++ ["src"]
                         ++ map fst (slog.argsToAttrs keyvals)
                         ++ (if SlogB.showCaller l then ["caller"] else []))]
           else []).
Proof.
  intros kl krec opt l.
  destruct (Kit_New_keys lower order w name level Kit.FormatLogFmt static)
    as [Heven Hkeys].
  fold kl in Heven, Hkeys.
  split; [| split].
  - unfold Kit.leveled, Kit.L_log.
    destruct (kitlog_With_dest (Kit.logger kl)
                [AString "src"; AString (Kit.L_source kl);
                 AString "level"; AString (Kit.Level_String klv);
                 AString "msg"; kmsg]) as [Hd Hf].
    rewrite Hd, Hf. fold krec.
    assert (Hdf : kitlog.dest (Kit.logger kl)
                  = match w with None => Stdout | Some w' => w' end
                  /\ kitlog.format (Kit.logger kl) = LogFmt).
    { unfold kl, Kit.New. cbv zeta. cbn [Kit.logger].
      destruct ((0 <? List.length static)%nat).
      - destruct (kitlog_With_dest
                    (kitlog.With
                       (if String.eqb (strings.ToLower lower Kit.FormatLogFmt) Kit.FormatJSON
                        then kitlog.NewJSONLogger (match w with None => Stdout | Some w0 => w0 end)
                        else kitlog.NewLogfmtLogger (match w with None => Stdout | Some w0 => w0 end))
                       [AString "ts"; AValuer DefaultTimestampUTC;
                        AString "caller"; AValuer (callerValuer 5)]) static) as [H1 H2].
        rewrite H1, H2. split; reflexivity.
      - split; reflexivity. }
    destruct Hdf as [Hd' Hf']. now rewrite Hd', Hf'.
  - unfold krec. rewrite keys_Log by (now apply With_keyvals_even).
    rewrite With_keys by exact Heven. rewrite Hkeys.
    rewrite <- !app_assoc. reflexivity.
  - intros Hps Hks Hpk Hkk.
    assert (Hattrs : slog.attrs (SlogB.slogger l)
                     = slog.argsToAttrs (Options.keyvals opt)
                         ++ [("src", AString (Options.name opt))]).
    { unfold l. cbv beta iota zeta delta [SlogB.New SlogB.slogger].
      rewrite With_attrs. fold opt.
      now rewrite (argsToAttrs_app _ _ Hps). }
    assert (Hplain : plainKeys (slog.attrs (SlogB.slogger l)) = true)
      by (rewrite Hattrs, plainKeys_app, Hks; reflexivity).
    assert (Hcall : SlogB.L_log_call (Some l) e lv msg keyvals
                    = if slog.threshold (SlogB.slogger l) <=? lv
                      then Returns [EvSlog (SlogB.slogger l)
                                      {| slog.time := now e; slog.level := lv;
                                         slog.msg := SlogB.toString msg;
                                         slog.rattrs := slog.argsToAttrs keyvals
                                                          ++ callerAttrs l e |}]
                      else Returns []).
    { pose proof (SlogB_log_call_fields l e lv msg keyvals [] Hpk eq_refl) as H.
      cbn [map app] in H. rewrite app_nil_r in H. rewrite H.
      unfold takes. now rewrite (plain_accepted _ _ Hkk). }
    split; [| split].
    + unfold SlogB.New_call. cbv zeta. fold l.
      now rewrite (plain_accepted _ _ Hplain).
    + rewrite Hcall. now destruct (slog.threshold (SlogB.slogger l) <=? lv).
    + rewrite Hcall. destruct (slog.threshold (SlogB.slogger l) <=? lv); trivial.
      cbn [trace map lineKeys]. rewrite line_keys.
      * rewrite Hattrs. cbn [slog.rattrs].
        rewrite !map_app. unfold callerAttrs.
        destruct (SlogB.showCaller l); simpl; rewrite <- !app_assoc; reflexivity.
      * exact Hplain.
      * cbn [slog.rattrs]. now rewrite plainKeys_app, Hkk, callerAttrs_plain.
Qed.

Lemma record_key_order_witness :
  map lineKeys
    (trace
       (SlogB.L_log_call
          (Some (SlogB.New sampleProc (now sampleEnv)
                   [Options.WithName "somelogger";
                    Options.With [AString "key1"; AString "value1"]]))
          sampleEnv slog.LevelWarn (AString "foo")
          [AString "key2"; AString "value2"]))
  = [Some ["ts"; "level"; "msg"; "key1"; "src"; "key2"; "caller"]].
Proof.
  pose proof (record_key_order (fun s => s) Kit.levelNames None "somelogger" "info"
                [AString "key1"; AString "value1"] Kit.Info (AString "foo")
                [AString "key2"]
                sampleProc (now sampleEnv)
                [Options.WithName "somelogger";
                 Options.With [AString "key1"; AString "value1"]]
                slog.LevelWarn sampleEnv (AString "foo")
                [AString "key2"; AString "value2"]) as H.
  cbv zeta in H.
  destruct H as (_ & _ & H).
  destruct (H eq_refl eq_refl eq_refl eq_refl) as (_ & _ & Hline).
  exact Hline.
Defined.

(** C3 fails on the latest revision: the line of
    [Info("foo", "key2", "value2")] on a logger with the static field
    [key1] has [level] and [msg] before the bound fields and [caller]
    after the call-site field, not the order the spec words. *)
Lemma latest_key_order_differs :
  map lineKeys
    (trace
       (SlogB.L_Info
          (Some (SlogB.New sampleProc (now sampleEnv)
                   [Options.WithName "somelogger";
                    Options.With [AString "key1"; AString "value1"]]))
          sampleEnv (AString "foo") [AString "key2"; AString "value2"]))
  = [Some ["ts"; "level"; "msg"; "key1"; "src"; "key2"; "caller"]]
  /\ ["ts"; "level"; "msg"; "key1"; "src"; "key2"; "caller"]
     <> specOrder ["key1"; "src"] ["key2"].
Proof. split; [vm_compute; reflexivity | discriminate]. Qed.

(** * Further properties of the code *)

(** ** Strings *)

Lemma string_app_assoc (a b c : string) :
  ((a ++ b) ++ c = a ++ (b ++ c))%string.
Proof. induction a as [| x a IH]; simpl; [reflexivity | now rewrite IH]. Qed.

Lemma string_app_nil_r (a : string) : (a ++ "")%string = a.
Proof. induction a as [| x a IH]; simpl; [reflexivity | now rewrite IH]. Qed.

Lemma prefix_app (q rest : string) : String.prefix q (q ++ rest) = true.
Proof.
  induction q as [| c q IH]; simpl.
  - now destruct rest.
  - destruct (ascii_dec c c); [exact IH | contradiction].
Qed.

Lemma drop_app (q rest : string) :
  strings.drop (String.length q) (q ++ rest) = rest.
Proof. induction q as [| c q IH]; simpl; [now destruct rest | exact IH]. Qed.

(** ** Parsing level names, slog revisions *)

(** Every level name is an ASCII lower-case word: lower-casing keeps it. *)
Lemma levelNames_lower (lower : string -> string) (e : slog.Level * string) :
  In e SlogLevels.levelNames -> strings.ToLower lower (snd e) = snd e.
Proof. intros H. each_entry H; reflexivity. Qed.

(** The search of [ParseLevel] has a single candidate once the
    lower-cased input is a non-empty prefix of a name. *)
Lemma ParseLevel_lowered (lower : string -> string)
      (order : list (slog.Level * string))
      (lvl : slog.Level) (name q rest s : string) :
  SlogLevels.range_order order ->
  In (lvl, name) SlogLevels.levelNames ->
  name = (q ++ rest)%string ->
  q <> "" ->
  strings.ToLower lower s = q ->
  SlogLevels.ParseLevel lower order s = lvl.
Proof.
  intros Hperm Hin Hname Hq Hs.
  unfold SlogLevels.ParseLevel. cbv zeta. rewrite Hs.
  rewrite (find_unique _ order (lvl, name)); trivial.
  - now apply (Permutation_in _ (Permutation_sym Hperm)).
  - cbn [snd]. rewrite Hname. apply prefix_app.
  - intros y Hy Hpy. destruct q as [| c q]; [congruence |].
    apply (levelNames_one_match c q); trivial.
    + now apply (Permutation_in _ Hperm).
    + cbn [snd]. rewrite Hname. apply prefix_app.
Qed.

(** X1.  An input whose lower-cased form is a non-empty prefix of a
    level name parses to the level of that name, whatever order the map
    is visited in: [ParseLevel("W")], [ParseLevel("wa")] and
    [ParseLevel("WARN")] are all [slog.LevelWarn]. *)
Theorem ParseLevel_prefix (lower : string -> string)
        (order : list (slog.Level * string))
        (lvl : slog.Level) (name q rest s : string) :
  SlogLevels.range_order order ->
  In (lvl, name) SlogLevels.levelNames ->
  name = (q ++ rest)%string ->
  q <> "" ->
  strings.ToLower lower s = q ->
  SlogLevels.ParseLevel lower order s = lvl.
Proof.
  intros Hperm Hin Hname Hq Hs.
  assert (Hone : forall y, In y order ->
                   strings.HasPrefix (snd y) q = true -> y = (lvl, name)).
  { intros y Hy Hpy. destruct q as [| c q]; [congruence |].
    apply (levelNames_one_match c q); trivial.
    - now apply (Permutation_in _ Hperm).
    - cbn [snd]. rewrite Hname. apply prefix_app. }
  unfold SlogLevels.ParseLevel. cbv zeta. rewrite Hs.
  destruct (find _ order) as [y |] eqn:Hf.
  - apply find_some in Hf. destruct Hf as [Hy Hpy].
    now rewrite (Hone y Hy Hpy).
  - apply (Permutation_in _ (Permutation_sym Hperm)) in Hin.
    apply (find_none _ _ Hf) in Hin. cbn [snd] in Hin.
    unfold strings.HasPrefix in Hin.
    rewrite Hname, prefix_app in Hin. discriminate.
Qed.

Lemma ParseLevel_prefix_witness :
  SlogLevels.ParseLevel (fun s => s) (rev SlogLevels.levelNames) "Wa"
  = slog.LevelWarn.
Proof.
  apply (ParseLevel_prefix (fun s => s) (rev SlogLevels.levelNames)
           slog.LevelWarn "warn" "wa" "rn" "Wa").
  - unfold SlogLevels.range_order. apply Permutation_sym, Permutation_rev.
  - simpl. tauto.
  - reflexivity.
  - discriminate.
  - reflexivity.
Defined.

(** X2.  Storing a level by its name and reading it back: after
    [SetLevel(name)] with the name of an entry of [levelNames], [Level()]
    is the level of that entry, whatever the cell held and whatever order
    the map is visited in; the same holds for the initial level of
    [NewDynamicLeveler]. *)
Theorem DynamicLeveler_roundtrip (lower : string -> string)
        (order : list (slog.Level * string)) (d : Dynamic.DynamicLeveler)
        (lvl : slog.Level) (name : string) :
  SlogLevels.range_order order ->
  In (lvl, name) SlogLevels.levelNames ->
  Dynamic.Level (Dynamic.SetLevel lower order d name) = lvl
  /\ Dynamic.Level (Dynamic.NewDynamicLeveler lower order name) = lvl.
Proof.
  intros Hperm Hin.
  assert (H : SlogLevels.ParseLevel lower order name = lvl).
  { apply (ParseLevel_lowered lower order lvl name name "" name Hperm Hin).
    - now rewrite string_app_nil_r.
    - intros ->. each_entry Hin; discriminate.
    - apply (levelNames_lower lower (lvl, name) Hin). }
  split; exact H.
Qed.

Lemma DynamicLeveler_roundtrip_witness :
  Dynamic.Level
    (Dynamic.SetLevel (fun s => s) (rev SlogLevels.levelNames)
       (Dynamic.NewDynamicLeveler (fun s => s) SlogLevels.levelNames "debug")
       "err")
  = slog.LevelError.
Proof.
  apply (DynamicLeveler_roundtrip (fun s => s) (rev SlogLevels.levelNames)
           (Dynamic.NewDynamicLeveler (fun s => s) SlogLevels.levelNames "debug")
           slog.LevelError "err").
  - unfold SlogLevels.range_order. apply Permutation_sym, Permutation_rev.
  - simpl. tauto.
Defined.

(** X3.  An input whose lower-cased form is a prefix of no level name
    (so it is not empty) parses to [LevelAll] in every visiting order:
    an unknown name is never an error. *)
Theorem ParseLevel_unknown (lower : string -> string)
        (order : list (slog.Level * string)) (s : string) :
  SlogLevels.range_order order ->
  (forall e, In e SlogLevels.levelNames ->
             strings.HasPrefix (snd e) (strings.ToLower lower s) = false) ->
  SlogLevels.ParseLevel lower order s = SlogLevels.LevelAll
  /\ s <> "".
Proof.
  intros Hperm Hno. split; [now apply ParseLevel_unmatched |].
  intros ->.
  specialize (Hno (SlogLevels.LevelAll, "all") (or_introl eq_refl)).
  discriminate Hno.
Qed.

Lemma ParseLevel_unknown_witness :
  SlogLevels.ParseLevel (fun s => s) (rev SlogLevels.levelNames) "verbose"
  = SlogLevels.LevelAll.
Proof.
  apply (ParseLevel_unknown (fun s => s) (rev SlogLevels.levelNames) "verbose").
  - unfold SlogLevels.range_order. apply Permutation_sym, Permutation_rev.
  - intros e He. each_entry He; reflexivity.
Defined.

(** ** Trimming the caller *)

Lemma rev_onto_acc (s acc : string) :
  strings.rev_onto s acc = (strings.rev_onto s "" ++ acc)%string.
Proof.
  revert acc. induction s as [| c s IH]; intros acc; simpl; [reflexivity |].
  rewrite (IH (String c acc)), (IH (String c "")), string_app_assoc.
  reflexivity.
Qed.

Lemma rev_onto_app (s t acc : string) :
  strings.rev_onto (s ++ t) acc = strings.rev_onto t (strings.rev_onto s acc).
Proof.
  revert acc. induction s as [| c s IH]; intros acc; simpl; [reflexivity | apply IH].
Qed.

Lemma HasSuffix_app (s t : string) : strings.HasSuffix (s ++ t) t = true.
Proof.
  unfold strings.HasSuffix.
  rewrite rev_onto_app, (rev_onto_acc t (strings.rev_onto s "")).
  apply prefix_app.
Qed.

(** The stored trim prefix always ends with the separator. *)
Lemma trimOf_suffix (str : string) : strings.HasSuffix (trimOf str) "/" = true.
Proof.
  unfold trimOf. destruct (strings.HasSuffix str "/") eqn:E; [exact E |].
  apply HasSuffix_app.
Qed.

Lemma WithCallerPrefixTrim_sets (str : string) (o : Options.options) :
  str <> "" ->
  Options.callerPrefixTrim (Options.WithCallerPrefixTrim str o) = trimOf str.
Proof.
  intros H. unfold Options.WithCallerPrefixTrim, trimOf.
  destruct (String.eqb_spec str ""); [contradiction | reflexivity].
Qed.

(** X4.  [WithCallerPrefixTrim] with the empty string changes nothing;
    with a non-empty path it stores the path with exactly one separator
    added when the path does not end with one, so the stored prefix
    always ends with ["/"], and every other field of the option record,
    the time formatter and the leveler among them, is left as it was. *)
Theorem WithCallerPrefixTrim_normalises (str : string) (o : Options.options) :
  str <> "" ->
  let o' := Options.WithCallerPrefixTrim str o in
  Options.WithCallerPrefixTrim "" o = o
  /\ strings.HasSuffix (Options.callerPrefixTrim o') "/" = true
  /\ (Options.callerPrefixTrim o' = str
      \/ (strings.HasSuffix str "/" = false
          /\ Options.callerPrefixTrim o' = (str ++ "/")%string))
  /\ Options.WithCallerPrefixTrim (Options.callerPrefixTrim o') o = o'
  /\ o' = {| Options.format := Options.format o;
              Options.name := Options.name o;
              Options.keyvals := Options.keyvals o;
              Options.level := Options.level o;
              Options.destination := Options.destination o;
              Options.showCaller := Options.showCaller o;
              Options.callerPrefixTrim := Options.callerPrefixTrim o';
              Options.timeFormatter := Options.timeFormatter o;
              Options.leveler := Options.leveler o |}.
Proof.
  intros H o'.
  assert (Ht : Options.callerPrefixTrim o' = trimOf str)
    by now apply WithCallerPrefixTrim_sets.
  split; [reflexivity |].
  split; [rewrite Ht; apply trimOf_suffix |].
  split.
  { rewrite Ht. unfold trimOf.
    destruct (strings.HasSuffix str "/"); [now left | right; now split]. }
  split.
  - rewrite Ht. unfold o', Options.WithCallerPrefixTrim.
    destruct (String.eqb_spec str ""); [contradiction |].
    fold (trimOf str).
    destruct (String.eqb_spec (trimOf str) "") as [E |].
    + pose proof (trimOf_suffix str) as Hs. rewrite E in Hs. discriminate.
    + now rewrite (trimOf_suffix str).
  - unfold o', Options.WithCallerPrefixTrim.
    destruct (String.eqb_spec str ""); [contradiction | reflexivity].
Qed.

Lemma WithCallerPrefixTrim_normalises_witness :
  Options.callerPrefixTrim
    (Options.WithCallerPrefixTrim "github.com/jasonhancock/go-logger"
       (Options.defaults sampleProc))
  = "github.com/jasonhancock/go-logger"
  \/ (strings.HasSuffix "github.com/jasonhancock/go-logger" "/" = false
      /\ Options.callerPrefixTrim
           (Options.WithCallerPrefixTrim "github.com/jasonhancock/go-logger"
              (Options.defaults sampleProc))
         = "github.com/jasonhancock/go-logger/").
Proof.
  apply (WithCallerPrefixTrim_normalises "github.com/jasonhancock/go-logger"
           (Options.defaults sampleProc)).
  discriminate.
Defined.

Lemma apply_snoc (opts : list Options.Option) (f : Options.Option)
      (o : Options.options) :
  Options.apply (opts ++ [f]) o = f (Options.apply opts o).
Proof. unfold Options.apply. now rewrite fold_left_app. Qed.

Lemma caller_trimmed (e : Env) (depth : nat) (trim rest : string) :
  callers e depth = (trim ++ rest)%string ->
  SlogB.caller e depth trim = rest.
Proof.
  intros H. unfold SlogB.caller, strings.TrimPrefix, strings.HasPrefix.
  rewrite H. destruct (String.eqb_spec trim "") as [-> |]; simpl; trivial.
  now rewrite prefix_app, drop_app.
Qed.

Lemma caller_untrimmed (e : Env) (depth : nat) (trim : string) :
  strings.HasPrefix (callers e depth) trim = false ->
  SlogB.caller e depth trim = callers e depth.
Proof.
  intros H. unfold SlogB.caller, strings.TrimPrefix. rewrite H.
  now destruct (negb (String.eqb trim "")).
Qed.

(** X5.  A logger built with [WithCallerPrefixTrim(str)], [str] not
    empty, as its last option and caller display on, called with a
    string message and call-site fields given as complete key/value
    pairs, at a level its threshold admits: when the call site reads as
    the stored prefix ([str], with a separator added when it does not
    end with one)
    followed by [rest], the record handed to the handler has the
    call-site fields and then the attribute [caller] with [rest]; when
    the call site does not start with the stored prefix, the attribute
    is the call site unchanged. *)
Theorem caller_prefix_trim (p : Proc) (ts : Time) (opts : list Options.Option)
        (str rest : string) (e : Env) (lvl : slog.Level) (m : string)
        (keyvals : list any) :
  let l := SlogB.New p ts (opts ++ [Options.WithCallerPrefixTrim str]) in
  str <> "" ->
  SlogB.showCaller l = true ->
  paired keyvals = true ->
  slog.threshold (SlogB.slogger l) <= lvl ->
  (callers e 3 = (trimOf str ++ rest)%string ->
   SlogB.L_log (Some l) e lvl (AString m) keyvals
   = [EvSlog (SlogB.slogger l)
        {| slog.time := now e; slog.level := lvl; slog.msg := m;
           slog.rattrs := slog.argsToAttrs keyvals ++ [("caller", AString rest)] |}])
  /\ (strings.HasPrefix (callers e 3) (trimOf str) = false ->
      SlogB.L_log (Some l) e lvl (AString m) keyvals
      = [EvSlog (SlogB.slogger l)
           {| slog.time := now e; slog.level := lvl; slog.msg := m;
              slog.rattrs := slog.argsToAttrs keyvals
                               ++ [("caller", AString (callers e 3))] |}]).
Proof.
  intros l Hstr Hshow Hp Hthr.
  assert (Htrim : SlogB.callerPrefixTrim l = trimOf str).
  { unfold l. cbv beta iota zeta delta [SlogB.New SlogB.callerPrefixTrim].
    rewrite apply_snoc. now apply WithCallerPrefixTrim_sets. }
  assert (Hlog : SlogB.L_log (Some l) e lvl (AString m) keyvals
                 = [EvSlog (SlogB.slogger l)
                      {| slog.time := now e; slog.level := lvl;
                         slog.msg := m;
                         slog.rattrs := slog.argsToAttrs keyvals
                           ++ [("caller", AString (SlogB.caller e 3 (trimOf str)))] |}]).
  { rewrite (SlogB_log_record l e lvl (AString m) keyvals Hp).
    apply Z.leb_le in Hthr. rewrite Hthr.
    unfold callerAttrs. now rewrite Hshow, Htrim. }
  split; intros H; rewrite Hlog.
  - now rewrite (caller_trimmed e 3 (trimOf str) rest H).
  - now rewrite (caller_untrimmed e 3 (trimOf str) H).
Qed.

Lemma caller_prefix_trim_witness :
  SlogB.L_log
    (Some (SlogB.New sampleProc (now sampleEnv)
             ([Options.WithName "somelogger"]
                ++ [Options.WithCallerPrefixTrim "github.com/jasonhancock"])))
    sampleEnv slog.LevelInfo (AString "foo") [AString "key2"; AString "value2"]
  = [EvSlog
       (SlogB.slogger
          (SlogB.New sampleProc (now sampleEnv)
             ([Options.WithName "somelogger"]
                ++ [Options.WithCallerPrefixTrim "github.com/jasonhancock"])))
       {| slog.time := now sampleEnv; slog.level := slog.LevelInfo;
          slog.msg := "foo";
          slog.rattrs := slog.argsToAttrs [AString "key2"; AString "value2"]
                           ++ [("caller", AString "go-logger/logger_test.go:29")] |}].
Proof.
  apply (caller_prefix_trim sampleProc (now sampleEnv)
           [Options.WithName "somelogger"] "github.com/jasonhancock"
           "go-logger/logger_test.go:29" sampleEnv slog.LevelInfo
           "foo" [AString "key2"; AString "value2"]).
  - discriminate.
  - reflexivity.
  - reflexivity.
  - discriminate.
  - reflexivity.
Defined.

(** ** Derived loggers *)

Lemma Join_snoc (l : list string) (n sep : string) :
  l <> [] ->
  strings.Join (l ++ [n]) sep = (strings.Join l sep ++ sep ++ n)%string.
Proof.
  unfold strings.Join.
  induction l as [| a l IH]; intros H; [contradiction |].
  destruct l as [| b l]; [reflexivity |].
  change (String.concat sep ((a :: b :: l) ++ [n]))
    with (a ++ sep ++ String.concat sep ((b :: l) ++ [n]))%string.
  rewrite IH by discriminate.
  change (String.concat sep (a :: b :: l))
    with (a ++ sep ++ String.concat sep (b :: l))%string.
  now rewrite !string_app_assoc.
Qed.

Lemma SlogB_New_chain_src (names : list string) (l : SlogB.L) :
  SlogB.src (fold_left SlogB.L_New names l) = SlogB.src l ++ names.
Proof.
  revert l. induction names as [| n names IH]; intros l; simpl.
  - now rewrite app_nil_r.
  - rewrite IH. cbn [SlogB.L_New SlogB.src]. now rewrite <- app_assoc.
Qed.

(** *** The segment slices *)

Lemma update_length (hp : goslice.Heap) (a : nat) (arr : list string) :
  List.length (goslice.update hp a arr) = List.length hp.
Proof.
  revert a. induction hp as [| b hp IH]; intros [| a]; simpl; auto.
Qed.

Lemma nth_update (hp : goslice.Heap) (a : nat) (arr : list string) :
  (a < List.length hp)%nat -> nth a (goslice.update hp a arr) [] = arr.
Proof.
  revert a. induction hp as [| b hp IH]; intros [| a] H; simpl in *; try lia; auto.
  apply IH. lia.
Qed.

Lemma store_length (arr : list string) (i : nat) (x : string) :
  (i < List.length arr)%nat -> List.length (goslice.store arr i x) = List.length arr.
Proof.
  intros H. unfold goslice.store.
  rewrite length_app, length_firstn. cbn [List.length]. rewrite length_skipn. lia.
Qed.

Lemma firstn_store (arr : list string) (i : nat) (x : string) :
  (i < List.length arr)%nat ->
  firstn (S i) (goslice.store arr i x) = firstn i arr ++ [x].
Proof.
  intros H. unfold goslice.store.
  rewrite firstn_app, length_firstn.
  replace (S i - Nat.min i (List.length arr))%nat with 1%nat by lia.
  rewrite firstn_firstn. replace (Nat.min (S i) i) with i by lia. reflexivity.
Qed.

Lemma firstn_store_below (arr : list string) (i : nat) (x : string) :
  (i <= List.length arr)%nat ->
  firstn i (goslice.store arr i x) = firstn i arr.
Proof.
  intros H. unfold goslice.store.
  rewrite firstn_app, length_firstn.
  replace (i - Nat.min i (List.length arr))%nat with 0%nat by lia.
  rewrite firstn_firstn. replace (Nat.min i i) with i by lia.
  simpl. now rewrite app_nil_r.
Qed.

Lemma store_store (arr : list string) (i : nat) (x y : string) :
  (i < List.length arr)%nat ->
  goslice.store (goslice.store arr i x) i y = goslice.store arr i y.
Proof.
  intros H. unfold goslice.store at 1 3.
  rewrite (firstn_store_below arr i x) by lia. f_equal. f_equal.
  unfold goslice.store.
  rewrite skipn_app, length_firstn.
  replace (S i - Nat.min i (List.length arr))%nat with 1%nat by lia.
  rewrite skipn_firstn_comm. replace (i - S i)%nat with 0%nat by lia.
  reflexivity.
Qed.

Lemma valid_inv (hp : goslice.Heap) (s : goslice.Slice) :
  goslice.valid hp s = true ->
  (goslice.array s < List.length hp)%nat
  /\ List.length (goslice.backing hp s) = goslice.cap s
  /\ (goslice.len s <= goslice.cap s)%nat.
Proof.
  unfold goslice.valid. intros H.
  apply andb_prop in H. destruct H as [H H3].
  apply andb_prop in H. destruct H as [H1 H2].
  apply Nat.ltb_lt in H1. apply Nat.eqb_eq in H2. apply Nat.leb_le in H3. auto.
Qed.

Lemma valid_intro (hp : goslice.Heap) (s : goslice.Slice) :
  (goslice.array s < List.length hp)%nat ->
  List.length (goslice.backing hp s) = goslice.cap s ->
  (goslice.len s <= goslice.cap s)%nat ->
  goslice.valid hp s = true.
Proof.
  intros H1 H2 H3. unfold goslice.valid.
  apply Nat.ltb_lt in H1. apply Nat.eqb_eq in H2. apply Nat.leb_le in H3.
  now rewrite H1, H2, H3.
Qed.

(** What one [append] does to the slice it returns and to the slice it
    was given. *)
Lemma append_elems (grow : nat -> nat) (hp : goslice.Heap) (s : goslice.Slice)
      (x : string) :
  goslice.valid hp s = true ->
  let hp' := fst (goslice.append grow hp s x) in
  let s' := snd (goslice.append grow hp s x) in
  goslice.elems hp' s' = goslice.elems hp s ++ [x]
  /\ goslice.valid hp' s' = true
  /\ goslice.elems hp' s = goslice.elems hp s
  /\ goslice.valid hp' s = true.
Proof.
  intros Hv. apply valid_inv in Hv. destruct Hv as (Ha & Hl & Hc).
  unfold goslice.append.
  destruct (Nat.ltb_spec (goslice.len s) (goslice.cap s)) as [Hlt | Hge];
    cbn [fst snd].
  - assert (Hb : forall t, goslice.array t = goslice.array s ->
                   goslice.backing
                     (goslice.update hp (goslice.array s)
                        (goslice.store (goslice.backing hp s) (goslice.len s) x)) t
                   = goslice.store (goslice.backing hp s) (goslice.len s) x).
    { intros t Ht. unfold goslice.backing at 1. rewrite Ht. now apply nth_update. }
    repeat split.
    + unfold goslice.elems. rewrite Hb by reflexivity. cbn [goslice.len].
      apply firstn_store. lia.
    + apply valid_intro; cbn [goslice.array goslice.len goslice.cap].
      * now rewrite update_length.
      * rewrite Hb by reflexivity. rewrite store_length; lia.
      * lia.
    + unfold goslice.elems. rewrite Hb by reflexivity.
      apply firstn_store_below. lia.
    + apply valid_intro.
      * now rewrite update_length.
      * rewrite Hb by reflexivity. rewrite store_length; lia.
      * lia.
  - assert (Hn : List.length (goslice.elems hp s) = goslice.len s)
      by (unfold goslice.elems; rewrite length_firstn; lia).
    repeat split.
    + unfold goslice.elems at 1, goslice.backing. cbn [goslice.array goslice.len].
      rewrite nth_middle.
      rewrite firstn_app, Hn.
      replace (S (goslice.len s) - goslice.len s)%nat with 1%nat by lia.
      rewrite firstn_all2 by lia. reflexivity.
    + apply valid_intro; cbn [goslice.array goslice.len goslice.cap].
      * rewrite length_app. simpl. lia.
      * unfold goslice.backing. cbn [goslice.array]. rewrite nth_middle.
        rewrite length_app, Hn. cbn [List.length]. rewrite repeat_length. lia.
      * lia.
    + unfold goslice.elems, goslice.backing. now rewrite app_nth1.
    + apply valid_intro.
      * rewrite length_app. simpl. lia.
      * unfold goslice.backing. now rewrite app_nth1.
      * lia.
Qed.

Lemma update_update (hp : goslice.Heap) (a : nat) (v w : list string) :
  goslice.update (goslice.update hp a v) a w = goslice.update hp a w.
Proof.
  revert a. induction hp as [| b hp IH]; intros [| a]; simpl; auto.
  now rewrite IH.
Qed.

(** Allocating leaves the slices of the heap as they were. *)
Lemma valid_extend (hp more : goslice.Heap) (t : goslice.Slice) :
  goslice.valid hp t = true ->
  goslice.elems (hp ++ more) t = goslice.elems hp t
  /\ goslice.valid (hp ++ more) t = true.
Proof.
  intros Hv. apply valid_inv in Hv. destruct Hv as (Ha & Hl & Hc).
  assert (Hb : goslice.backing (hp ++ more) t = goslice.backing hp t)
    by (unfold goslice.backing; now rewrite app_nth1).
  split.
  - unfold goslice.elems. now rewrite Hb.
  - apply valid_intro; [rewrite length_app; lia | now rewrite Hb | exact Hc].
Qed.

(** Appending the same element to the same slice once more either
    leaves the heap as it is or allocates. *)
Lemma append_again (grow : nat -> nat) (hp : goslice.Heap) (s : goslice.Slice)
      (x : string) :
  goslice.valid hp s = true ->
  let hp1 := fst (goslice.append grow hp s x) in
  fst (goslice.append grow hp1 s x) = hp1
  \/ exists arr, fst (goslice.append grow hp1 s x) = hp1 ++ [arr].
Proof.
  intros Hv. apply valid_inv in Hv. destruct Hv as (Ha & Hl & Hc).
  unfold goslice.append.
  destruct (Nat.ltb_spec (goslice.len s) (goslice.cap s)) as [Hlt | Hge];
    cbn [fst snd].
  - left.
    assert (Hb : goslice.backing
                   (goslice.update hp (goslice.array s)
                      (goslice.store (goslice.backing hp s) (goslice.len s) x)) s
                 = goslice.store (goslice.backing hp s) (goslice.len s) x)
      by (unfold goslice.backing at 1; now apply nth_update).
    rewrite Hb, store_store by lia. apply update_update.
  - right. eexists. reflexivity.
Qed.

(** Appending the same element to the same slice a second time leaves
    the result of the first [append] as it was. *)
Lemma append_twice (grow : nat -> nat) (hp : goslice.Heap) (s : goslice.Slice)
      (x : string) :
  goslice.valid hp s = true ->
  let hp1 := fst (goslice.append grow hp s x) in
  let s1 := snd (goslice.append grow hp s x) in
  let hp2 := fst (goslice.append grow hp1 s x) in
  let s2 := snd (goslice.append grow hp1 s x) in
  goslice.elems hp2 s1 = goslice.elems hp s ++ [x]
  /\ goslice.valid hp2 s1 = true
  /\ goslice.elems hp2 s2 = goslice.elems hp s ++ [x]
  /\ goslice.elems hp2 s = goslice.elems hp s
  /\ goslice.valid hp2 s = true.
Proof.
  intros Hv hp1 s1 hp2 s2.
  destruct (append_elems grow hp s x Hv) as (E1 & V1 & E0 & V0).
  fold hp1 in E1, V1, E0, V0. fold s1 in E1, V1.
  destruct (append_elems grow hp1 s x V0) as (E2 & V2 & E0' & V0').
  fold hp2 in E2, V2, E0', V0'. fold s2 in E2, V2.
  assert (Hs1 : goslice.elems hp2 s1 = goslice.elems hp1 s1
                /\ goslice.valid hp2 s1 = true).
  { destruct (append_again grow hp s x Hv) as [H | [arr H]];
      fold hp1 in H; fold hp2 in H; rewrite H.
    - now split.
    - now apply valid_extend. }
  destruct Hs1 as [Hs1 Hv1].
  repeat split.
  - now rewrite Hs1.
  - exact Hv1.
  - now rewrite E2, E0.
  - now rewrite E0'.
  - exact V0'.
Qed.

(** What [L.New] returns, read in the heap it leaves. *)
Lemma Shared_L_New_read (grow : nat -> nat) (hp : goslice.Heap) (l : Shared.L)
      (name : string) :
  goslice.valid hp (Shared.src l) = true ->
  let hp' := fst (Shared.L_New grow hp l name) in
  let c := snd (Shared.L_New grow hp l name) in
  Shared.read hp' c = SlogB.L_New (Shared.read hp l) name
  /\ goslice.valid hp' (Shared.src c) = true
  /\ Shared.read hp' l = Shared.read hp l
  /\ goslice.valid hp' (Shared.src l) = true.
Proof.
  intros Hv.
  destruct (append_twice grow hp (Shared.src l) name Hv) as (E1 & V1 & E2 & E0 & V0).
  unfold Shared.L_New.
  destruct (goslice.append grow hp (Shared.src l) name) as [hp1 s1] eqn:A1.
  cbn [fst snd] in *.
  destruct (goslice.append grow hp1 (Shared.src l) name) as [hp2 s2] eqn:A2.
  cbn [fst snd] in *.
  repeat split; trivial.
  - unfold Shared.read, SlogB.L_New.
    cbn [Shared.slogger Shared.src Shared.showCaller Shared.callerPrefixTrim
         SlogB.slogger SlogB.src SlogB.showCaller SlogB.callerPrefixTrim].
    now rewrite E1, E2.
  - unfold Shared.read. now rewrite E0.
Qed.

Lemma Shared_chain_read (grow : nat -> nat) (names : list string)
      (hp : goslice.Heap) (l : Shared.L) :
  goslice.valid hp (Shared.src l) = true ->
  let hp' := fst (Shared.chain grow hp l names) in
  let c := snd (Shared.chain grow hp l names) in
  Shared.read hp' c = fold_left SlogB.L_New names (Shared.read hp l)
  /\ goslice.valid hp' (Shared.src c) = true.
Proof.
  revert hp l. induction names as [| n names IH]; intros hp l Hv.
  - now split.
  - destruct (Shared_L_New_read grow hp l n Hv) as (R & V & _).
    cbn [Shared.chain fold_left].
    destruct (Shared.L_New grow hp l n) as [hp1 l1]. cbn [fst snd] in *.
    rewrite <- R. now apply IH.
Qed.

Lemma Shared_New_read (p : Proc) (ts : Time) (opts : list Options.Option)
      (hp : goslice.Heap) :
  let hp' := fst (Shared.New p ts opts hp) in
  let root := snd (Shared.New p ts opts hp) in
  Shared.read hp' root = SlogB.New p ts opts
  /\ goslice.valid hp' (Shared.src root) = true
  /\ goslice.len (Shared.src root) = goslice.cap (Shared.src root).
Proof.
  unfold Shared.New, goslice.literal. cbn [fst snd].
  repeat split.
  - unfold Shared.read, goslice.elems, goslice.backing.
    cbn [Shared.src Shared.slogger Shared.showCaller Shared.callerPrefixTrim
         goslice.array goslice.len].
    rewrite nth_middle. reflexivity.
  - apply valid_intro; cbn [Shared.src goslice.array goslice.len goslice.cap].
    + rewrite length_app. simpl. lia.
    + unfold goslice.backing. cbn [goslice.array]. now rewrite nth_middle.
    + lia.
Qed.

(** X6.  Sub-logger names compound along a chain of derivations.  Below
    a root built by [New], when each sub-logger is derived from the one
    before, the handle reached through [names] and then [n] reads the
    root name followed by [names] and [n] as source segments, whatever
    capacities [append] chooses; the attribute it binds last is [src]
    with the segments joined by dots, which is the path of its parent,
    a dot, and [n]; and the handle reads as the sub-logger functions
    compute it from the root without a heap. *)
Theorem sublogger_path (grow : nat -> nat) (p : Proc) (ts : Time)
        (opts : list Options.Option) (hp : goslice.Heap)
        (names : list string) (n : string) :
  let st1 := Shared.New p ts opts hp in
  let st2 := Shared.chain grow (fst st1) (snd st1) names in
  let st3 := Shared.L_New grow (fst st2) (snd st2) n in
  let path := Options.name (Options.apply opts (Options.defaults p))
                :: names ++ [n] in
  goslice.elems (fst st3) (Shared.src (snd st3)) = path
  /\ last (slog.attrs (Shared.slogger (snd st3))) ("", AString "")
     = ("src", AString (strings.Join path "."))
  /\ strings.Join path "."
     = (strings.Join (goslice.elems (fst st2) (Shared.src (snd st2))) "."
          ++ "." ++ n)%string
  /\ Shared.read (fst st3) (snd st3)
     = fold_left SlogB.L_New (names ++ [n]) (SlogB.New p ts opts).
Proof.
  intros st1 st2 st3 path.
  destruct (Shared_New_read p ts opts hp) as (R1 & V1 & _).
  fold st1 in R1, V1.
  destruct (Shared_chain_read grow names (fst st1) (snd st1) V1) as (R2 & V2).
  fold st2 in R2, V2. rewrite R1 in R2.
  destruct (Shared_L_New_read grow (fst st2) (snd st2) n V2) as (R3 & _).
  fold st3 in R3. rewrite R2 in R3.
  assert (Hparent : goslice.elems (fst st2) (Shared.src (snd st2))
                    = Options.name (Options.apply opts (Options.defaults p)) :: names).
  { change (goslice.elems (fst st2) (Shared.src (snd st2)))
      with (SlogB.src (Shared.read (fst st2) (snd st2))).
    now rewrite R2, SlogB_New_chain_src. }
  assert (Hchild : goslice.elems (fst st3) (Shared.src (snd st3)) = path).
  { change (goslice.elems (fst st3) (Shared.src (snd st3)))
      with (SlogB.src (Shared.read (fst st3) (snd st3))).
    rewrite R3. cbn [SlogB.L_New SlogB.src]. now rewrite SlogB_New_chain_src. }
  split; [exact Hchild |].
  split; [| split].
  - change (Shared.slogger (snd st3))
      with (SlogB.slogger (Shared.read (fst st3) (snd st3))).
    rewrite R3. cbn [SlogB.L_New SlogB.slogger].
    rewrite With_attrs, SlogB_New_chain_src.
    cbn [slog.argsToAttrs slog.String_]. rewrite last_last.
    reflexivity.
  - rewrite Hparent. unfold path.
    change (Options.name (Options.apply opts (Options.defaults p)) :: names ++ [n])
      with ((Options.name (Options.apply opts (Options.defaults p)) :: names) ++ [n]).
    apply Join_snoc. discriminate.
  - rewrite R3, fold_left_app. reflexivity.
Qed.

Lemma sublogger_path_example :
  last
    (slog.attrs
       (Shared.slogger
          (snd (Shared.chain (fun c => 2 * c)%nat
                  (fst (Shared.New sampleProc (now sampleEnv)
                          [Options.WithName "somelogger"] []))
                  (snd (Shared.New sampleProc (now sampleEnv)
                          [Options.WithName "somelogger"] []))
                  ["sublogger"; "grandchild"]))))
    ("", AString "")
  = ("src", AString "somelogger.sublogger.grandchild").
Proof. vm_compute. reflexivity. Qed.

Lemma Shared_L_New_src (grow : nat -> nat) (hp : goslice.Heap) (l : Shared.L)
      (name : string) :
  Shared.src (snd (Shared.L_New grow hp l name))
  = snd (goslice.append grow hp (Shared.src l) name).
Proof.
  unfold Shared.L_New.
  destruct (goslice.append grow hp (Shared.src l) name) as [hp1 s1].
  now destruct (goslice.append grow hp1 (Shared.src l) name).
Qed.

Lemma append_shares (grow : nat -> nat) (hp : goslice.Heap) (s : goslice.Slice)
      (x : string) :
  (goslice.len s < goslice.cap s)%nat ->
  snd (goslice.append grow hp s x)
  = {| goslice.array := goslice.array s; goslice.len := S (goslice.len s);
       goslice.cap := goslice.cap s |}.
Proof.
  intros H. unfold goslice.append. apply Nat.ltb_lt in H. now rewrite H.
Qed.

(** X19.  Two sub-loggers derived from the same handle share a slot of
    its segment array when the slice of the handle has spare capacity.
    After [x := l.New(n1)] and [y := l.New(n2)] the segments of [x] read
    as those of [l] followed by [n2], not [n1]: the second derivation
    has overwritten the last segment of the first.  The [src] attribute
    [x] bound at its creation still names [n1], and a sub-logger derived
    from [x] afterwards with the name [n3] binds the path of [l], then
    [n2], then [n3]. *)
Theorem sibling_overwrites (grow : nat -> nat) (hp : goslice.Heap) (l : Shared.L)
        (n1 n2 n3 : string) :
  goslice.valid hp (Shared.src l) = true ->
  (goslice.len (Shared.src l) < goslice.cap (Shared.src l))%nat ->
  let st1 := Shared.L_New grow hp l n1 in
  let st2 := Shared.L_New grow (fst st1) l n2 in
  let st3 := Shared.L_New grow (fst st2) (snd st1) n3 in
  let segs := goslice.elems hp (Shared.src l) in
  goslice.elems (fst st1) (Shared.src (snd st1)) = segs ++ [n1]
  /\ goslice.elems (fst st2) (Shared.src (snd st2)) = segs ++ [n2]
  /\ goslice.elems (fst st2) (Shared.src (snd st1)) = segs ++ [n2]
  /\ last (slog.attrs (Shared.slogger (snd st1))) ("", AString "")
     = ("src", AString (strings.Join (segs ++ [n1]) "."))
  /\ last (slog.attrs (Shared.slogger (snd st3))) ("", AString "")
     = ("src", AString (strings.Join (segs ++ [n2; n3]) ".")).
Proof.
  intros Hv Hcap st1 st2 st3 segs.
  destruct (Shared_L_New_read grow hp l n1 Hv) as (R1 & V1 & R0 & V0).
  fold st1 in R1, V1, R0, V0.
  destruct (Shared_L_New_read grow (fst st1) l n2 V0) as (R2 & V2 & _).
  fold st2 in R2, V2.
  assert (Hsame : Shared.src (snd st1) = Shared.src (snd st2)).
  { unfold st1, st2. rewrite !Shared_L_New_src.
    now rewrite !append_shares by exact Hcap. }
  assert (E1 : goslice.elems (fst st1) (Shared.src (snd st1)) = segs ++ [n1]).
  { change (goslice.elems (fst st1) (Shared.src (snd st1)))
      with (SlogB.src (Shared.read (fst st1) (snd st1))).
    now rewrite R1. }
  assert (E2 : goslice.elems (fst st2) (Shared.src (snd st2)) = segs ++ [n2]).
  { change (goslice.elems (fst st2) (Shared.src (snd st2)))
      with (SlogB.src (Shared.read (fst st2) (snd st2))).
    rewrite R2, R0. reflexivity. }
  assert (V3 : goslice.valid (fst st2) (Shared.src (snd st1)) = true)
    by now rewrite Hsame.
  destruct (Shared_L_New_read grow (fst st2) (snd st1) n3 V3) as (R3 & _).
  fold st3 in R3.
  split; [exact E1 |].
  split; [exact E2 |].
  split; [now rewrite Hsame |].
  split.
  - change (Shared.slogger (snd st1))
      with (SlogB.slogger (Shared.read (fst st1) (snd st1))).
    rewrite R1. cbn [SlogB.L_New SlogB.slogger].
    rewrite With_attrs. cbn [slog.argsToAttrs slog.String_]. rewrite last_last.
    reflexivity.
  - change (Shared.slogger (snd st3))
      with (SlogB.slogger (Shared.read (fst st3) (snd st3))).
    rewrite R3. cbn [SlogB.L_New SlogB.slogger].
    rewrite With_attrs. cbn [slog.argsToAttrs slog.String_]. rewrite last_last.
    cbn [Shared.read SlogB.src]. rewrite Hsame, E2, <- app_assoc. reflexivity.
Qed.

Lemma sibling_overwrites_witness :
  let grow := (fun c => 2 * c)%nat in
  let st0 := Shared.New sampleProc (now sampleEnv) [Options.WithName "root"] [] in
  let stb := Shared.chain grow (fst st0) (snd st0) ["a"; "b"] in
  let stx := Shared.L_New grow (fst stb) (snd stb) "x" in
  let sty := Shared.L_New grow (fst stx) (snd stb) "y" in
  let stz := Shared.L_New grow (fst sty) (snd stx) "z" in
  (goslice.len (Shared.src (snd stb)), goslice.cap (Shared.src (snd stb)))
  = (3%nat, 4%nat)
  /\ goslice.elems (fst sty) (Shared.src (snd stx)) = ["root"; "a"; "b"; "y"]
  /\ last (slog.attrs (Shared.slogger (snd stz))) ("", AString "")
     = ("src", AString "root.a.b.y.z").
Proof.
  intros grow st0 stb stx sty stz.
  split; [reflexivity |].
  destruct (sibling_overwrites grow (fst stb) (snd stb) "x" "y" "z")
    as (_ & _ & Hx & _ & Hz).
  - reflexivity.
  - vm_compute. lia.
  - split; [exact Hx | exact Hz].
Defined.

Lemma SlogB_log_nil (r : SlogB.L) (e : Env) (lvl : slog.Level) (msg : any)
      (keyvals : list any) :
  SlogB.L_log (Some r) e lvl msg keyvals = []
  <-> lvl < slog.threshold (SlogB.slogger r).
Proof.
  unfold SlogB.L_log, slogger.Log, slog.Enabled.
  destruct (Z.leb_spec (slog.threshold (SlogB.slogger r)) lvl);
    split; intros; try lia; try reflexivity; discriminate.
Qed.

Lemma SlogB_derive_keeps (l : SlogB.L) (s : step) :
  slog.threshold (SlogB.slogger (SlogB_derive l s)) = slog.threshold (SlogB.slogger l)
  /\ slog.dest (SlogB.slogger (SlogB_derive l s)) = slog.dest (SlogB.slogger l)
  /\ slog.format (SlogB.slogger (SlogB_derive l s)) = slog.format (SlogB.slogger l)
  /\ SlogB.showCaller (SlogB_derive l s) = SlogB.showCaller l
  /\ SlogB.callerPrefixTrim (SlogB_derive l s) = SlogB.callerPrefixTrim l
  /\ exists extra, slog.attrs (SlogB.slogger (SlogB_derive l s))
                   = slog.attrs (SlogB.slogger l) ++ extra.
Proof.
  destruct s as [name | keyvals]; cbn [SlogB_derive SlogB.L_New SlogB.L_With
    SlogB.slogger SlogB.showCaller SlogB.callerPrefixTrim].
  - repeat split. eexists. apply With_attrs.
  - rewrite With_threshold.
    destruct keyvals as [| x keyvals]; cbn [slog.With slog.dest slog.format];
      repeat split.
    + exists []. now rewrite app_nil_r.
    + eexists. reflexivity.
Qed.

Lemma SlogB_chain_keeps (steps : list step) (l : SlogB.L) :
  slog.threshold (SlogB.slogger (fold_left SlogB_derive steps l))
  = slog.threshold (SlogB.slogger l)
  /\ slog.dest (SlogB.slogger (fold_left SlogB_derive steps l))
     = slog.dest (SlogB.slogger l)
  /\ slog.format (SlogB.slogger (fold_left SlogB_derive steps l))
     = slog.format (SlogB.slogger l)
  /\ SlogB.showCaller (fold_left SlogB_derive steps l) = SlogB.showCaller l
  /\ SlogB.callerPrefixTrim (fold_left SlogB_derive steps l)
     = SlogB.callerPrefixTrim l
  /\ exists extra, slog.attrs (SlogB.slogger (fold_left SlogB_derive steps l))
                   = slog.attrs (SlogB.slogger l) ++ extra.
Proof.
  revert l. induction steps as [| s steps IH]; intros l.
  - simpl. repeat split. exists []. now rewrite app_nil_r.
  - cbn [fold_left].
    destruct (IH (SlogB_derive l s)) as (H1 & H2 & H3 & H4 & H5 & [x H7]).
    destruct (SlogB_derive_keeps l s) as (K1 & K2 & K3 & K4 & K5 & [y K7]).
    rewrite H1, H2, H3, H4, H5, H7, K1, K2, K3, K4, K5, K7.
    repeat split.
    exists (y ++ x). now rewrite app_assoc.
Qed.

(** X7.  Whatever sub-loggers and added fields lead from a handle to a
    derived one, the derived handle keeps the threshold, destination,
    format and both caller settings, the bound fields of the original
    are a prefix of its bound fields, and a message is dropped by the
    derived handle exactly when the original drops it. *)
Theorem derived_logger_keeps (l : SlogB.L) (steps : list step) :
  let c := fold_left SlogB_derive steps l in
  slog.threshold (SlogB.slogger c) = slog.threshold (SlogB.slogger l)
  /\ slog.dest (SlogB.slogger c) = slog.dest (SlogB.slogger l)
  /\ slog.format (SlogB.slogger c) = slog.format (SlogB.slogger l)
  /\ SlogB.showCaller c = SlogB.showCaller l
  /\ SlogB.callerPrefixTrim c = SlogB.callerPrefixTrim l
  /\ (exists extra, slog.attrs (SlogB.slogger c)
                    = slog.attrs (SlogB.slogger l) ++ extra)
  /\ (forall e lvl msg keyvals,
         SlogB.L_log (Some c) e lvl msg keyvals = []
         <-> SlogB.L_log (Some l) e lvl msg keyvals = []).
Proof.
  cbv zeta.
  destruct (SlogB_chain_keeps steps l) as (H1 & H2 & H3 & H4 & H5 & H7).
  repeat split; trivial.
  - intros H. apply SlogB_log_nil. rewrite <- H1. now apply SlogB_log_nil in H.
  - intros H. apply SlogB_log_nil. rewrite H1. now apply SlogB_log_nil in H.
Qed.

(** X8.  In the first slog revision every derived handle, through any
    non-empty sequence of sub-loggers and added fields, has caller
    display off, whatever the root was built with: what it hands to the
    backend is the call-site arguments alone, with no [caller]
    attribute. *)
Theorem SlogA_derived_no_caller (l : SlogA.L) (steps : list step)
        (e : Env) (lvl : slog.Level) (msg : string) (keyvals : list any) :
  steps <> [] ->
  let c := fold_left SlogA_derive steps l in
  SlogA.showCaller c = false
  /\ SlogA.L_log (Some c) e lvl msg keyvals
     = slogger.Log (SlogA.slogger c) (now e) lvl msg keyvals.
Proof.
  intros H c.
  assert (Hs : SlogA.showCaller c = false).
  { unfold c. destruct (exists_last H) as (steps' & s & ->).
    rewrite fold_left_app. cbn [fold_left]. now destruct s. }
  split; [exact Hs |].
  unfold SlogA.L_log. now rewrite Hs.
Qed.

Lemma SlogA_derived_no_caller_witness :
  SlogA.showCaller
    (fold_left SlogA_derive [StepWith [AString "key4"; AString "value4"]]
       (SlogA.New sampleProc SlogLevels.levelNames (now sampleEnv)
          [Options.WithCaller true]))
  = false.
Proof.
  apply (SlogA_derived_no_caller
           (SlogA.New sampleProc SlogLevels.levelNames (now sampleEnv)
              [Options.WithCaller true])
           [StepWith [AString "key4"; AString "value4"]]
           sampleEnv slog.LevelInfo "sub" []).
  discriminate.
Defined.

(** ** The line of a record *)

Lemma mapM_builtins (h : slog.Handler) (r : slog.Record_) :
  slog.mapM (SlogLevels.ReplaceAttr (slog.timeFormatter h))
    [(slog.TimeKey, ATime (slog.time r)); (slog.LevelKey, ALevel (slog.level r));
     (slog.MessageKey, AString (slog.msg r))]
  = Some [("ts", tsValue h (slog.time r));
          ("level", AString (levelLabel (slog.level r)));
          ("msg", AString (slog.msg r))].
Proof.
  unfold tsValue, levelLabel. destruct (slog.timeFormatter h); reflexivity.
Qed.

Lemma line_content (h : slog.Handler) (r : slog.Record_) :
  plainKeys (slog.attrs h) = true -> plainKeys (slog.rattrs r) = true ->
  SlogLevels.line h r
  = Some ([("ts", tsValue h (slog.time r));
           ("level", AString (levelLabel (slog.level r)));
           ("msg", AString (slog.msg r))] ++ slog.attrs h ++ slog.rattrs r).
Proof.
  intros Hh Hr. unfold SlogLevels.line, slog.line.
  rewrite mapM_app, mapM_builtins.
  now rewrite mapM_plain by (now rewrite plainKeys_app, Hh, Hr).
Qed.

Lemma SlogB_New_attrs (p : Proc) (ts : Time) (opts : list Options.Option) :
  slog.attrs (SlogB.slogger (SlogB.New p ts opts))
  = slog.argsToAttrs
      (Options.keyvals (Options.apply opts (Options.defaults p))
         ++ [slog.String_ "src" (Options.name (Options.apply opts (Options.defaults p)))]).
Proof.
  cbv beta iota zeta delta [SlogB.New SlogB.slogger].
  now rewrite With_attrs.
Qed.

(** X9.  What a logger built by [New] writes for a leveled call with a
    string message, field by field, when the static and call-site
    fields are complete pairs with plain keys: the time under [ts], the
    level under [level] as the package's own lower-case label ([debug],
    [info], [warn], [err], [fatal] for the five methods), the message
    under [msg], every static field with its value, [src] with the
    configured name, every call-site field with its value, and the
    caller. *)
Theorem line_of_record (p : Proc) (ts : Time) (opts : list Options.Option)
        (e : Env) (lvl : slog.Level) (m : string) (keyvals : list any) :
  let opt := Options.apply opts (Options.defaults p) in
  let l := SlogB.New p ts opts in
  paired (Options.keyvals opt) = true ->
  plainKeys (slog.argsToAttrs (Options.keyvals opt)) = true ->
  paired keyvals = true ->
  plainKeys (slog.argsToAttrs keyvals) = true ->
  slog.threshold (SlogB.slogger l) <= lvl ->
  map (fun ev => match ev with
                 | EvSlog h r => SlogLevels.line h r
                 | _ => None
                 end) (SlogB.L_log (Some l) e lvl (AString m) keyvals)
  = [Some ([("ts", tsValue (SlogB.slogger l) (now e));
            ("level", AString (levelLabel lvl));
            ("msg", AString m)]
             ++ slog.argsToAttrs (Options.keyvals opt)
             ++ [("src", AString (Options.name opt))]
             ++ slog.argsToAttrs keyvals
             ++ callerAttrs l e)]
  /\ map levelLabel [slog.LevelDebug; slog.LevelInfo; slog.LevelWarn;
                     slog.LevelError; SlogLevels.LevelFatal]
     = ["debug"; "info"; "warn"; "err"; "fatal"].
Proof.
  intros opt l Hps Hks Hpk Hkk Hthr. split; [| reflexivity].
  rewrite (SlogB_log_record l e lvl (AString m) keyvals Hpk).
  apply Z.leb_le in Hthr. rewrite Hthr. cbn [map].
  assert (Hattrs : slog.attrs (SlogB.slogger l)
                   = slog.argsToAttrs (Options.keyvals opt)
                       ++ [("src", AString (Options.name opt))]).
  { unfold l. rewrite SlogB_New_attrs. fold opt.
    now rewrite (argsToAttrs_app _ _ Hps). }
  rewrite line_content.
  - cbn [slog.time slog.level slog.msg slog.rattrs].
    rewrite Hattrs, <- !app_assoc. reflexivity.
  - rewrite Hattrs, plainKeys_app, Hks. reflexivity.
  - cbn [slog.rattrs]. rewrite plainKeys_app, Hkk.
    unfold callerAttrs. now destruct (SlogB.showCaller l).
Qed.

Lemma line_of_record_witness :
  map (fun ev => match ev with
                 | EvSlog h r => SlogLevels.line h r
                 | _ => None
                 end)
    (SlogB.L_log
       (Some (SlogB.New sampleProc (now sampleEnv)
                [Options.WithName "somelogger";
                 Options.With [AString "key1"; AString "value1"]]))
       sampleEnv slog.LevelInfo (AString "foo") [AString "key2"; AString "value2"])
  = [Some [("ts", AString "+42 UTC"); ("level", AString "info");
           ("msg", AString "foo"); ("key1", AString "value1");
           ("src", AString "somelogger"); ("key2", AString "value2");
           ("caller", AString "github.com/jasonhancock/go-logger/logger_test.go:29")]].
Proof.
  apply (line_of_record sampleProc (now sampleEnv)
           [Options.WithName "somelogger";
            Options.With [AString "key1"; AString "value1"]]
           sampleEnv slog.LevelInfo "foo"
           [AString "key2"; AString "value2"]);
    try reflexivity; discriminate.
Defined.

(** ** Rendering the time *)

Lemma With_timeFormatter (h : slog.Handler) (args : list any) :
  slog.timeFormatter (slog.With h args) = slog.timeFormatter h.
Proof. destruct args; reflexivity. Qed.

Lemma apply_keeps_timeFormatter (post : list Options.Option) (o : Options.options) :
  Forall keeps_timeFormatter post ->
  Options.timeFormatter (Options.apply post o) = Options.timeFormatter o.
Proof.
  intros H. revert o. induction H as [| f post Hf _ IH]; intros o.
  - reflexivity.
  - unfold Options.apply in *. simpl. rewrite IH. apply Hf.
Qed.

Lemma SlogB_New_timeFormatter (p : Proc) (ts : Time) (opts : list Options.Option) :
  slog.timeFormatter (SlogB.slogger (SlogB.New p ts opts))
  = Options.effectiveTimeFormatter p ts (Options.apply opts (Options.defaults p)).
Proof.
  cbv beta iota zeta delta [SlogB.New SlogB.slogger].
  now rewrite With_timeFormatter.
Qed.

(** X10.  How a logger built by [New] renders the time of a record.
    The [ReplaceAttr] closure of its handler turns the built-in time
    attribute into one keyed [ts].  When the last option that sets a
    time formatter is [WithTimeLocation(loc)], its value is the time
    rendered in [loc] with the RFC 3339 layout.  When no option sets
    one, the value is the time rendered in UTC if, at construction, the
    local rendering of the current time differed from its UTC
    rendering, and the time itself, left to the handler, otherwise. *)
Theorem time_rendering (p : Proc) (ts : Time) (pre post : list Options.Option)
        (loc : string) (t : Time) :
  Forall keeps_timeFormatter post ->
  let rep opts :=
    SlogLevels.ReplaceAttr (slog.timeFormatter (SlogB.slogger (SlogB.New p ts opts))) in
  rep (pre ++ Options.WithTimeLocation p loc :: post) (slog.TimeKey, ATime t)
  = Some ("ts", AString (rfc3339nano p (In_loc loc t)))
  /\ rep post (slog.TimeKey, ATime t)
     = Some ("ts", if String.eqb (rfc3339nano p ts) (rfc3339nano p (In_loc UTC ts))
                   then ATime t
                   else AString (rfc3339nano p (In_loc UTC t))).
Proof.
  intros Hpost rep. unfold rep. rewrite !SlogB_New_timeFormatter.
  unfold Options.effectiveTimeFormatter. split.
  - rewrite apply_app.
    change (Options.WithTimeLocation p loc :: post)
      with ([Options.WithTimeLocation p loc] ++ post).
    rewrite apply_app, (apply_keeps_timeFormatter post _ Hpost). reflexivity.
  - rewrite (apply_keeps_timeFormatter post _ Hpost). cbn [Options.defaults
      Options.timeFormatter].
    now destruct (String.eqb _ _).
Qed.

Lemma time_rendering_witness :
  SlogLevels.ReplaceAttr
    (slog.timeFormatter
       (SlogB.slogger
          (SlogB.New sampleProc (now sampleEnv)
             ([Options.WithName "somelogger"]
                ++ Options.WithTimeLocation sampleProc "Europe/Paris"
                :: [Options.WithCaller false]))))
    (slog.TimeKey, ATime (now sampleEnv))
  = Some ("ts", AString "+42 Europe/Paris").
Proof.
  apply (time_rendering sampleProc (now sampleEnv) [Options.WithName "somelogger"]
           [Options.WithCaller false] "Europe/Paris" (now sampleEnv)).
  repeat constructor.
Defined.

(** ** [Fatal] on a parsed threshold *)

Lemma Kit_ParseLevel_range (lower : string -> string)
      (order : list (Kit.Level * string)) (s : string) :
  Kit.range_order order ->
  Kit.All <= Kit.ParseLevel lower order s <= Kit.Debug.
Proof.
  intros Hperm. unfold Kit.ParseLevel.
  destruct (find _ order) as [x|] eqn:Hf; [| split; discriminate].
  apply find_some in Hf. destruct Hf as [Hin _].
  apply (Permutation_in _ Hperm) in Hin.
  each_entry Hin; split; discriminate.
Qed.

(** X11.  No level name silences [Fatal].  In the go-kit revision and in
    the first slog revision the threshold of a logger built by the
    constructor is a parsed level name, and whatever name was given and
    whatever order the map is visited in, the record of [Fatal] passes
    the filter.  In the go-kit revision [Fatal] hands over its record and
    then calls [os.Exit(1)].  In the first slog revision it hands over
    its record and then calls [os.Exit(1)] when the handler formats the
    call-site fields without a fault; when the handler faults on one of
    them, no record is written and [os.Exit(1)] is not reached. *)
Theorem Fatal_never_filtered
        (lower : string -> string) (korder : list (Kit.Level * string))
        (w : option Writer) (name level format : string) (static : list any)
        (p : Proc) (order : list (slog.Level * string)) (ts : Time)
        (opts : list Options.Option)
        (e : Env) (kmsg : any) (msg : string) (keyvals : list any) :
  Kit.range_order korder ->
  SlogLevels.range_order order ->
  let kl := Kit.New lower korder w name level format static in
  let l := SlogA.New p order ts opts in
  Kit.L_Fatal (Some kl) e kmsg keyvals
  = Returns [EvKit (kitlog.dest (Kit.logger kl)) (kitlog.format (Kit.logger kl))
               (kitlog.Log e
                  (kitlog.With (Kit.logger kl)
                     [AString "src"; AString (Kit.L_source kl);
                      AString "level"; AString "fatal"; AString "msg"; kmsg])
                  keyvals);
             EvExit 1]
  /\ slog.threshold (SlogA.slogger l) <= SlogLevels.LevelFatal
  /\ SlogA.L_Fatal (Some l) e msg keyvals
     = if takesA l (logArgsA l e keyvals)
       then Returns [EvSlog (SlogA.slogger l)
                       {| slog.time := now e; slog.level := SlogLevels.LevelFatal;
                          slog.msg := msg;
                          slog.rattrs := slog.argsToAttrs (logArgsA l e keyvals) |};
                     EvExit 1]
       else Panics [].
Proof.
  intros Hk Hs kl l.
  assert (Hthr : slog.threshold (SlogA.slogger l) <= SlogLevels.LevelFatal).
  { unfold l. cbv beta iota zeta delta [SlogA.New SlogA.slogger].
    rewrite With_threshold. cbn [slog.threshold SlogLevels.newHandler slog.minLevel].
    now apply ParseLevel_admits_Fatal. }
  split; [| split; [exact Hthr |]].
  - unfold Kit.L_Fatal, Kit.leveled, Kit.L_log.
    pose proof (Kit_ParseLevel_range lower korder level Hk) as [Hlo Hhi].
    change (Kit.L_Level kl) with (Kit.ParseLevel lower korder level).
    destruct (Z.ltb_spec (Kit.ParseLevel lower korder level) Kit.Fatal) as [Hlt |].
    + assert (E : Kit.ParseLevel lower korder level = Kit.All)
        by (unfold Kit.All, Kit.Fatal in *; lia).
      rewrite E. cbn [andb negb Z.eqb Kit.All].
      destruct (kitlog_With_dest (Kit.logger kl)
                  [AString "src"; AString (Kit.L_source kl);
                   AString "level"; AString (Kit.Level_String Kit.Fatal);
                   AString "msg"; kmsg]) as [Hd Hf].
      rewrite Hd, Hf. reflexivity.
    + cbn [andb].
      destruct (kitlog_With_dest (Kit.logger kl)
                  [AString "src"; AString (Kit.L_source kl);
                   AString "level"; AString (Kit.Level_String Kit.Fatal);
                   AString "msg"; kmsg]) as [Hd Hf].
      rewrite Hd, Hf. reflexivity.
  - unfold SlogA.L_Fatal. rewrite SlogA_log_call_outcome.
    apply Z.leb_le in Hthr. rewrite Hthr.
    now destruct (takesA l (logArgsA l e keyvals)).
Qed.

Lemma Fatal_never_filtered_witness :
  SlogA.L_Fatal
    (Some (SlogA.New sampleProc (rev SlogLevels.levelNames) (now sampleEnv)
             [Options.WithLevel "fatal"; Options.WithCaller false]))
    sampleEnv "boom" [AString "key1"; AString "value1"]
  = Returns
      [EvSlog
         (SlogA.slogger
            (SlogA.New sampleProc (rev SlogLevels.levelNames) (now sampleEnv)
               [Options.WithLevel "fatal"; Options.WithCaller false]))
         {| slog.time := now sampleEnv; slog.level := SlogLevels.LevelFatal;
            slog.msg := "boom"; slog.rattrs := [("key1", AString "value1")] |};
       EvExit 1].
Proof.
  pose proof (Fatal_never_filtered (fun s => s) (rev Kit.levelNames) None
                "somelogger" "fatal" "logfmt" []
                sampleProc (rev SlogLevels.levelNames) (now sampleEnv)
                [Options.WithLevel "fatal"; Options.WithCaller false]
                sampleEnv (AString "boom") "boom"
                [AString "key1"; AString "value1"]) as H.
  cbv zeta in H.
  destruct H as (_ & _ & H).
  - unfold Kit.range_order. apply Permutation_sym, Permutation_rev.
  - unfold SlogLevels.range_order. apply Permutation_sym, Permutation_rev.
  - rewrite H. reflexivity.
Defined.

(** ** A string key left without a value *)

Lemma argsToAttrs_dangling (kvs : list any) (k : string) (x : any) :
  paired kvs = true ->
  slog.argsToAttrs (kvs ++ [AString k; x]) = slog.argsToAttrs kvs ++ [(k, x)].
Proof. intros H. now rewrite (argsToAttrs_app _ _ H). Qed.

(** X12.  When the arguments end with a string key that has no value,
    the attribute the package appends becomes the value of that key.
    With caller display on, a call whose fields are complete pairs
    followed by the lone key [k] hands over a record in which [k] holds
    the caller attribute and no attribute is keyed [caller] by the
    package; with caller display off the lone key is filed under
    [!BADKEY].  In the same way static fields that end with a lone key
    take the [src] attribute of [New] as the value of that key. *)
Theorem lone_key_takes_appended_attr (r : SlogB.L) (e : Env) (lvl : slog.Level)
        (msg : any) (keyvals : list any) (k : string)
        (p : Proc) (ts : Time) (opts : list Options.Option) :
  paired keyvals = true ->
  slog.threshold (SlogB.slogger r) <= lvl ->
  SlogB.L_log (Some r) e lvl msg (keyvals ++ [AString k])
  = [EvSlog (SlogB.slogger r)
       {| slog.time := now e; slog.level := lvl; slog.msg := SlogB.toString msg;
          slog.rattrs :=
            slog.argsToAttrs keyvals
              ++ [if SlogB.showCaller r
                  then (k, AAttr "caller"
                             (AString (SlogB.caller e 3 (SlogB.callerPrefixTrim r))))
                  else (slog.badKey, AString k)] |}]
  /\ slog.attrs (SlogB.slogger
                   (SlogB.New p ts (opts ++ [Options.With (keyvals ++ [AString k])])))
     = slog.argsToAttrs keyvals
         ++ [(k, AAttr "src"
                   (AString (Options.name (Options.apply opts (Options.defaults p)))))].
Proof.
  intros Hp Hthr. split.
  - unfold SlogB.L_log, slogger.Log, slog.Enabled.
    apply Z.leb_le in Hthr. rewrite Hthr.
    destruct (SlogB.showCaller r).
    + rewrite <- app_assoc. cbn [app].
      now rewrite (argsToAttrs_dangling _ _ _ Hp).
    + now rewrite (argsToAttrs_app _ _ Hp).
  - rewrite SlogB_New_attrs, apply_snoc.
    cbn [Options.With Options.keyvals Options.name].
    rewrite <- app_assoc. cbn [app].
    now rewrite (argsToAttrs_dangling _ _ _ Hp).
Qed.

Lemma lone_key_takes_appended_attr_witness :
  slog.attrs
    (SlogB.slogger
       (SlogB.New sampleProc (now sampleEnv)
          ([Options.WithName "somelogger"]
             ++ [Options.With ([AString "key1"; AString "value1"] ++ [AString "key2"])])))
  = slog.argsToAttrs [AString "key1"; AString "value1"]
      ++ [("key2", AAttr "src" (AString "somelogger"))].
Proof.
  apply (lone_key_takes_appended_attr
           (SlogB.New sampleProc (now sampleEnv) []) sampleEnv slog.LevelInfo
           (AString "foo") [AString "key1"; AString "value1"] "key2"
           sampleProc (now sampleEnv) [Options.WithName "somelogger"]).
  - reflexivity.
  - discriminate.
Defined.

(** ** Binding a field keyed [level] *)



(** ** The discard sink *)

Lemma Kit_chain_keeps (steps : list step) (l : Kit.L) :
  Kit.L_Level (fold_left Kit_derive steps l) = Kit.L_Level l
  /\ kitlog.dest (Kit.logger (fold_left Kit_derive steps l))
     = kitlog.dest (Kit.logger l)
  /\ kitlog.format (Kit.logger (fold_left Kit_derive steps l))
     = kitlog.format (Kit.logger l).
Proof.
  revert l. induction steps as [| s steps IH]; intros l.
  - simpl. repeat split.
  - cbn [fold_left]. destruct (IH (Kit_derive l s)) as (H1 & H2 & H3).
    rewrite H1, H2, H3.
    destruct s as [name | keyvals]; cbn [Kit_derive Kit.L_New Kit.L_With
      Kit.L_Level Kit.logger].
    + repeat split.
    + destruct (kitlog_With_dest (Kit.logger l) keyvals) as [Hd Hf].
      rewrite Hd, Hf. repeat split.
Qed.

(** X13.  [Silence] silences the whole family: every record logged
    through the logger [Silence] returns, or through any logger derived
    from it by sub-loggers and added fields, is bound for the discard
    sink, in the latest revision and in the go-kit revision alike. *)
Theorem Silence_discards (p : Proc) (ts : Time)
        (lower : string -> string) (order : list (Kit.Level * string))
        (steps : list step) (e : Env)
        (lvl : slog.Level) (klvl : Kit.Level) (msg : any) (keyvals : list any) :
  forallb toDiscard
    (SlogB.L_log (Some (fold_left SlogB_derive steps (SlogB.Silence p ts)))
       e lvl msg keyvals) = true
  /\ forallb toDiscard
       (trace (Kit.leveled (Some (fold_left Kit_derive steps (Kit.Silence lower order)))
                 e klvl msg keyvals)) = true.
Proof.
  split.
  - destruct (SlogB_chain_keeps steps (SlogB.Silence p ts)) as (_ & Hd & _).
    unfold SlogB.L_log, slogger.Log.
    destruct (slog.Enabled _ _); [| reflexivity].
    cbn [forallb toDiscard]. rewrite Hd. reflexivity.
  - destruct (Kit_chain_keeps steps (Kit.Silence lower order)) as (_ & Hd & _).
    unfold Kit.leveled, Kit.L_log. cbn [trace].
    destruct (_ && _); [reflexivity |].
    cbn [forallb toDiscard].
    destruct (kitlog_With_dest
                (Kit.logger (fold_left Kit_derive steps (Kit.Silence lower order)))
                [AString "src";
                 AString (Kit.L_source (fold_left Kit_derive steps (Kit.Silence lower order)));
                 AString "level"; AString (Kit.Level_String klvl);
                 AString "msg"; msg]) as [Hw _].
    rewrite Hw, Hd. reflexivity.
Qed.

(** ** The record of the go-kit revision *)

Lemma bindValues_app (e : Env) (a b : list any) :
  Nat.even (List.length a) = true ->
  kitlog.bindValues e (a ++ b) = kitlog.bindValues e a ++ kitlog.bindValues e b.
Proof.
  induction a as [| x | x y a IH] using list_pair_ind; intros H.
  - reflexivity.
  - discriminate.
  - change ((x :: y :: a) ++ b) with (x :: y :: (a ++ b)).
    destruct y; cbn [kitlog.bindValues]; rewrite (IH H); reflexivity.
Qed.

Lemma Log_split (e : Env) (l : kitlog.Logger) (kvs : list any) :
  Nat.even (List.length (kitlog.keyvals l)) = true ->
  kitlog.Log e l kvs = kitlog.bindValues e (kitlog.keyvals l) ++ kitlog.pad kvs.
Proof.
  intros H. unfold kitlog.Log. cbv zeta.
  rewrite (pad_app_even _ _ H), firstn_app, skipn_app, Nat.sub_diag.
  rewrite firstn_all, skipn_all. simpl. now rewrite app_nil_r.
Qed.

Lemma Kit_New_keyvals lower order w name level format (static : list any) :
  kitlog.keyvals (Kit.logger (Kit.New lower order w name level format static))
  = [AString "ts"; AValuer DefaultTimestampUTC;
     AString "caller"; AValuer (callerValuer 5)] ++ kitlog.pad static.
Proof.
  unfold Kit.New. cbv zeta. cbn [Kit.logger].
  set (base := if String.eqb _ _ then _ else _).
  assert (Hb : kitlog.keyvals base = []) by (unfold base; now destruct (String.eqb _ _)).
  destruct static as [| x static].
  - change ((0 <? List.length (@nil any))%nat) with false. cbv iota.
    unfold kitlog.With. cbn [kitlog.keyvals]. rewrite Hb. reflexivity.
  - change ((0 <? List.length (x :: static))%nat) with true. cbv iota.
    unfold kitlog.With at 1. cbn [kitlog.keyvals].
    rewrite pad_app_even.
    + unfold kitlog.With. cbn [kitlog.keyvals]. rewrite Hb. reflexivity.
    + unfold kitlog.With. cbn [kitlog.keyvals]. rewrite Hb. reflexivity.
Qed.

Lemma Kit_New_dest lower order w name level format (static : list any) :
  kitlog.dest (Kit.logger (Kit.New lower order w name level format static))
  = match w with None => Stdout | Some w' => w' end
  /\ kitlog.format (Kit.logger (Kit.New lower order w name level format static))
     = if String.eqb (strings.ToLower lower format) Kit.FormatJSON
       then JSON else LogFmt.
Proof.
  unfold Kit.New. cbv zeta. cbn [Kit.logger].
  destruct ((0 <? List.length static)%nat).
  - match goal with
    | |- kitlog.dest (kitlog.With ?l ?k) = _ /\ _ =>
        destruct (kitlog_With_dest l k) as [H1 H2]; rewrite H1, H2
    end.
    destruct (String.eqb _ _); split; reflexivity.
  - destruct (String.eqb _ _); split; reflexivity.
Qed.

(** X14.  The record of the go-kit revision, key by key and value by
    value.  For the logger built by the constructor, or a handle with
    its backend and threshold whose source segments read [segs] when the
    call is made (the segments are read at every call), a leveled call
    with a string message hands the encoder, unless the level filter
    drops it: [ts] with the current time in UTC, [caller] with the frame
    five levels up, the static fields (padded with a missing-value
    marker when their number is odd), [src] with the segments joined by
    dots, [level] with the name of the level, [msg], then the call-site
    fields, padded likewise.  The record goes to the writer given to the
    constructor, or to standard output when that was nil.  The logger of
    the constructor reads its name as only segment, and a sub-logger
    reads, when [New] returns it, the segments of its parent and its
    name. *)
Theorem Kit_record lower order (w : option Writer) (name level format : string)
        (static : list any) (segs : list string) (n : string)
        (e : Env) (lvl : Kit.Level) (m : string) (keyvals : list any) :
  let root := Kit.New lower order w name level format static in
  let handle segs :=
    {| Kit.logger := Kit.logger root; Kit.L_Level := Kit.L_Level root;
       Kit.src := segs |} in
  Kit.leveled (Some (handle segs)) e lvl (AString m) keyvals
  = Returns
      (if (Kit.ParseLevel lower order level <? lvl)
          && negb (Kit.ParseLevel lower order level =? Kit.All)
       then []
       else [EvKit (match w with None => Stdout | Some w' => w' end)
               (if String.eqb (strings.ToLower lower format) Kit.FormatJSON
                then JSON else LogFmt)
               ([AString "ts"; ATime (In_loc UTC (now e));
                 AString "caller"; AString (callers e 5)]
                  ++ kitlog.bindValues e (kitlog.pad static)
                  ++ [AString "src"; AString (strings.Join segs ".");
                      AString "level"; AString (Kit.Level_String lvl);
                      AString "msg"; AString m]
                  ++ kitlog.pad keyvals)])
  /\ root = handle [name]
  /\ Kit.L_New (handle segs) n = handle (segs ++ [n]).
Proof.
  intros root handle.
  split; [| split; reflexivity].
  set (l := handle segs).
  assert (Hlog : Kit.logger l = Kit.logger root) by reflexivity.
  assert (Hlvl : Kit.L_Level l = Kit.L_Level root) by reflexivity.
  assert (Hsrc : Kit.src l = segs) by reflexivity.
  clearbody l.
  destruct (Kit_New_dest lower order w name level format static) as [Hd Hf].
  fold root in Hd, Hf.
  pose proof (Kit_New_keyvals lower order w name level format static) as Hkv.
  fold root in Hkv.
  unfold Kit.leveled, Kit.L_log. rewrite Hlvl, Hlog.
  change (Kit.L_Level root) with (Kit.ParseLevel lower order level).
  destruct (_ && _); [reflexivity |].
  match goal with
  | |- context [kitlog.With (Kit.logger root) ?k] =>
      destruct (kitlog_With_dest (Kit.logger root) k) as [Hd' Hf'];
      rewrite Hd', Hf', Hd, Hf;
      assert (Hw : kitlog.keyvals (kitlog.With (Kit.logger root) k)
                   = kitlog.keyvals (Kit.logger root) ++ k)
  end.
  { unfold kitlog.With. cbn [kitlog.keyvals]. apply pad_even.
    rewrite length_app, Nat.even_add, Hkv, length_app, Nat.even_add.
    rewrite pad_length_even. reflexivity. }
  rewrite Log_split.
  - rewrite Hw, Hkv.
    rewrite <- app_assoc.
    rewrite (bindValues_app e [AString "ts"; AValuer DefaultTimestampUTC;
                               AString "caller"; AValuer (callerValuer 5)])
      by reflexivity.
    rewrite bindValues_app by apply pad_length_even.
    unfold Kit.L_source. rewrite Hsrc.
    cbn [kitlog.bindValues kitlog.value_of app].
    rewrite <- !app_assoc. reflexivity.
  - rewrite Hw, length_app, Nat.even_add, Hkv, length_app, Nat.even_add.
    rewrite pad_length_even. reflexivity.
Qed.

(** ** Faults of [LogError] *)


(** ** The name option *)

Lemma apply_keeps_name (post : list Options.Option) (o : Options.options) :
  Forall keeps_name post ->
  Options.name (Options.apply post o) = Options.name o.
Proof.
  intros H. revert o. induction H as [| f post Hf _ IH]; intros o.
  - reflexivity.
  - unfold Options.apply in *. simpl. rewrite IH. apply Hf.
Qed.

(** X16.  The name of a logger.  With [WithName(n)] as the last option
    that sets the name, the root source segment is [n], and when the
    static fields are complete pairs the field bound last is [src]
    with the value [n]; with no option that sets the name, both are the
    base name of the executable. *)
Theorem logger_name (p : Proc) (ts : Time) (pre post : list Options.Option)
        (n : string) :
  Forall keeps_name post ->
  let named := SlogB.New p ts (pre ++ Options.WithName n :: post) in
  let unnamed := SlogB.New p ts post in
  SlogB.src named = [n]
  /\ SlogB.src unnamed = [exe p]
  /\ (paired (Options.keyvals
                (Options.apply (pre ++ Options.WithName n :: post)
                   (Options.defaults p))) = true ->
      last (slog.attrs (SlogB.slogger named)) ("", AString "")
      = ("src", AString n))
  /\ (paired (Options.keyvals (Options.apply post (Options.defaults p))) = true ->
      last (slog.attrs (SlogB.slogger unnamed)) ("", AString "")
      = ("src", AString (exe p))).
Proof.
  intros Hpost named unnamed.
  assert (Hn : Options.name (Options.apply (pre ++ Options.WithName n :: post)
                               (Options.defaults p)) = n).
  { rewrite apply_app.
    change (Options.WithName n :: post) with ([Options.WithName n] ++ post).
    now rewrite apply_app, apply_keeps_name. }
  assert (Hu : Options.name (Options.apply post (Options.defaults p)) = exe p)
    by now rewrite apply_keeps_name.
  split; [| split; [| split]].
  - unfold named. cbv beta iota zeta delta [SlogB.New SlogB.src]. now rewrite Hn.
  - unfold unnamed. cbv beta iota zeta delta [SlogB.New SlogB.src]. now rewrite Hu.
  - intros Hp. unfold named. rewrite SlogB_New_attrs, (argsToAttrs_app _ _ Hp), Hn.
    apply last_last.
  - intros Hp. unfold unnamed. rewrite SlogB_New_attrs, (argsToAttrs_app _ _ Hp), Hu.
    apply last_last.
Qed.

Lemma logger_name_witness :
  SlogB.src
    (SlogB.New sampleProc (now sampleEnv)
       ([Options.WithName "first"] ++ Options.WithName "somelogger"
          :: [Options.WithFormat "json"]))
  = ["somelogger"].
Proof.
  apply (logger_name sampleProc (now sampleEnv) [Options.WithName "first"]
           [Options.WithFormat "json"] "somelogger").
  repeat constructor.
Defined.

(** ** [LogError] in the go-kit revision *)

Lemma Kit_errorKeyvals_indexed (es : list error) (i : nat) :
  Kit.errorKeyvals i (map Some es)
  = Some (flat_map (fun ie => [AString ("error_" ++ fmt.pad02 (fst ie));
                               AString (error_Error (snd ie))])
            (combine (seq i (List.length es)) es)).
Proof.
  revert i. induction es as [| x es IH]; intros i; simpl; [reflexivity |].
  now rewrite IH.
Qed.

Lemma pairs_flat_map {A : Type} (f g : A -> any) (l : list A) :
  kitlog.pairs (flat_map (fun a => [f a; g a]) l) = map (fun a => (f a, g a)) l.
Proof. induction l as [| a l IH]; simpl; [reflexivity | now rewrite IH]. Qed.

(** X17.  [LogError] in the go-kit revision logs through [Err] with
    call-site key/values that the encoder reads as: the single pair
    [error] and the message of a plain error; or, for an error wrapping
    the non-nil errors [es], one pair per wrapped error in order, keyed
    ["error_"] and the index as [%02d] prints it, with the message of
    that error.  The key/values always come in pairs, so no
    missing-value marker is added. *)
Theorem Kit_LogError_fields (l : option Kit.L) (e : Env) (msg text : string)
        (es : list error) :
  (exists kvs,
      Kit.L_LogError l e msg (Some (PlainError text))
      = Kit.L_Err l e (AString msg) kvs
      /\ kitlog.pad kvs = kvs
      /\ kitlog.pairs kvs = [(AString "error", AString text)])
  /\ (exists kvs,
         Kit.L_LogError l e msg (Some (MultiError text (map Some es)))
         = Kit.L_Err l e (AString msg) kvs
         /\ kitlog.pad kvs = kvs
         /\ kitlog.pairs kvs
            = map (fun a => (AString (fst a), snd a)) (indexedFields es)).
Proof.
  split.
  - eexists. split; [reflexivity | split; reflexivity].
  - unfold Kit.L_LogError. rewrite Kit_errorKeyvals_indexed.
    eexists. split; [reflexivity |]. split.
    + apply pad_even.
      generalize (combine (seq 0 (List.length es)) es).
      intros c. induction c as [| a c IH]; [reflexivity | exact IH].
    + rewrite pairs_flat_map. unfold indexedFields. now rewrite map_map.
Qed.

(** ** The level option of the first slog revision *)

Lemma apply_keeps_level (post : list Options.Option) (o : Options.options) :
  Forall keeps_level post ->
  Options.level (Options.apply post o) = Options.level o.
Proof.
  intros H. revert o. induction H as [| f post Hf _ IH]; intros o.
  - reflexivity.
  - unfold Options.apply in *. simpl. rewrite IH. apply Hf.
Qed.

(** X18.  Configuring the threshold by name.  In the first slog revision
    a logger built with [WithLevel(s)] as the last option that sets the
    level, where [s] lower-cases to a non-empty prefix of the name of
    level [T], hands a message at level [M] to the handler exactly when
    [T <= M], whatever order the map of names is visited in. *)
Theorem WithLevel_sets_filter (p : Proc) (order : list (slog.Level * string))
        (ts : Time) (pre post : list Options.Option)
        (T : slog.Level) (name q rest s : string)
        (e : Env) (M : slog.Level) (msg : string) (keyvals : list any) :
  SlogLevels.range_order order ->
  In (T, name) SlogLevels.levelNames ->
  name = (q ++ rest)%string ->
  q <> "" ->
  strings.ToLower (unicodeLower p) s = q ->
  Forall keeps_level post ->
  let l := SlogA.New p order ts (pre ++ Options.WithLevel s :: post) in
  slog.threshold (SlogA.slogger l) = T
  /\ (T <= M <-> SlogA.L_log (Some l) e M msg keyvals <> [])
  /\ (M < T <-> SlogA.L_log (Some l) e M msg keyvals = []).
Proof.
  intros Hperm Hin Hname Hq Hs Hpost l.
  assert (Ht : slog.threshold (SlogA.slogger l) = T).
  { unfold l. cbv beta iota zeta delta [SlogA.New SlogA.slogger].
    rewrite With_threshold.
    cbn [slog.threshold SlogLevels.newHandler slog.minLevel].
    rewrite apply_app.
    change (Options.WithLevel s :: post) with ([Options.WithLevel s] ++ post).
    rewrite apply_app, (apply_keeps_level post _ Hpost).
    cbn [Options.apply fold_left Options.WithLevel Options.level].
    now apply (ParseLevel_lowered (unicodeLower p) order T name q rest s). }
  split; [exact Ht |]. rewrite <- Ht. split.
  - apply SlogA_log_passes.
  - apply SlogA_log_drops.
Qed.

Lemma WithLevel_sets_filter_witness :
  slog.threshold
    (SlogA.slogger
       (SlogA.New sampleProc (rev SlogLevels.levelNames) (now sampleEnv)
          ([Options.WithName "somelogger"] ++ Options.WithLevel "INFO"
             :: [Options.WithFormat "logfmt"])))
  = slog.LevelInfo.
Proof.
  apply (WithLevel_sets_filter sampleProc (rev SlogLevels.levelNames) (now sampleEnv)
           [Options.WithName "somelogger"] [Options.WithFormat "logfmt"]
           slog.LevelInfo "info" "info" "" "INFO"
           sampleEnv slog.LevelDebug "debug_message" []).
  - unfold SlogLevels.range_order. apply Permutation_sym, Permutation_rev.
  - simpl. tauto.
  - reflexivity.
  - discriminate.
  - reflexivity.
  - repeat constructor.
Defined.
